(** * Zenkai: the code agent run of [src/inngest/functions.ts]

    A shallow embedding of [codeAgentFunction]: the three sandbox tools
    ([terminal], [createOrUpdateFiles], [readFiles]), the completion detector
    ([onResponse]), the router, the run driver that persists one outcome
    record, and the properties of the shared Agent State that the design
    document states about them.

    Conventions of the embedding.
    - JavaScript strings are [string]; a character stands for one code unit
      below 256.
    - A JavaScript object used as a path-keyed dictionary is a
      [gmap string string] stored in a heap of objects, and a variable holding
      such an object holds its location: two variables holding the same
      location are aliases, as in the source.
    - [async] code that can throw is a computation in the monad [M]: it
      threads the process memory (heap, [network.state.data], the results
      appended by the network, the records created so far) together with the
      state of the outside world, and ends with [Returns v] or [Throws e],
      where [e] is the thrown value as a template literal renders it.
      Assignments made before a throw stay made.
    - The function runs on a durable-step substrate: a unit of work handed to
      [step.run] runs once, and the function goes on with the JSON round trip
      of what it returned, not with the memory the unit ran in.
    - The sandbox, the record store and the language model are collaborators
      behind the interface [Environment]; every theorem holds for every
      implementation of it, and [Sim] is a small executable one. *)

From stdpp Require Import base option gmap strings list fin_maps.
From Stdlib Require Import ZArith Ascii String Lia.

Open Scope string_scope.

(** ** Results of fallible code *)

Inductive outcome (A : Type) : Type :=
| Returns (a : A)
| Throws (e : string).
Arguments Returns {A} a.
Arguments Throws {A} e.

(** ** Strings the way the source uses them *)

(** [s.includes(needle)] *)
Fixpoint includes (s needle : string) : bool :=
  if String.prefix needle s then true
  else match s with
       | EmptyString => false
       | String _ s' => includes s' needle
       end.

(** Truthiness of a string in a condition: the empty string is falsy. *)
Definition truthy (s : string) : bool :=
  match s with EmptyString => false | String _ _ => true end.

(** [parts.join("")] once every part has been converted to a string. *)
Definition join_empty (parts : list string) : string :=
  foldr String.append "" parts.

(** *** [JSON.stringify] on an array of [{ path, content }] records *)

Definition dquote : ascii := "034"%char.
Definition backslash : ascii := "092"%char.

Definition hex_digit (n : N) : ascii :=
  match n with
  | 0 => "0" | 1 => "1" | 2 => "2" | 3 => "3" | 4 => "4" | 5 => "5"
  | 6 => "6" | 7 => "7" | 8 => "8" | 9 => "9" | 10 => "a" | 11 => "b"
  | 12 => "c" | 13 => "d" | 14 => "e" | _ => "f"
  end%N%char.

(** One code unit inside a JSON string literal: the quote, the backslash and
    the control characters are escaped, everything else is copied. *)
Definition json_escape (c : ascii) : string :=
  let n := N_of_ascii c in
  if (n =? 34)%N then String backslash (String dquote "")
  else if (n =? 92)%N then String backslash (String backslash "")
  else if (n =? 8)%N then String backslash "b"
  else if (n =? 12)%N then String backslash "f"
  else if (n =? 10)%N then String backslash "n"
  else if (n =? 13)%N then String backslash "r"
  else if (n =? 9)%N then String backslash "t"
  else if (n <? 32)%N then
    String backslash
      (String "u" (String "0" (String "0"
        (String (hex_digit (n / 16)) (String (hex_digit (n mod 16)) "")))))
  else String c "".

Fixpoint json_escape_all (s : string) : string :=
  match s with
  | EmptyString => ""
  | String c s' => json_escape c +:+ json_escape_all s'
  end.

Definition json_quote (s : string) : string :=
  String dquote (json_escape_all s +:+ String dquote "").

Record FileContent := { fc_path : string; fc_content : string }.

Definition json_record (r : FileContent) : string :=
  "{" +:+ json_quote "path" +:+ ":" +:+ json_quote (fc_path r) +:+ ","
      +:+ json_quote "content" +:+ ":" +:+ json_quote (fc_content r) +:+ "}".

Fixpoint json_elements (rs : list FileContent) : string :=
  match rs with
  | [] => ""
  | [r] => json_record r
  | r :: rs' => json_record r +:+ "," +:+ json_elements rs'
  end.

Definition JSON_stringify (contents : list FileContent) : string :=
  "[" +:+ json_elements contents +:+ "]".



(** ** Data of the run *)

(** Locations of JavaScript objects in the heap. *)
Definition loc := nat.

(** [interface AgentState { summary: string; files: { [path: string]: string } }]:
    [files] holds a reference to a dictionary object. *)
Record AgentState := {
  summary : string;
  files : loc;
}.

(** The value the [createOrUpdateFiles] step hands back: [typeof] tells an
    object from a string. *)
Inductive jsval :=
| VObject (l : loc)
| VString (s : string).

Record FileItem := { path : string; content : string }.

(** The three tools, with the parameters their schemas declare. *)
Inductive ToolCall :=
| terminal (command : string)
| createOrUpdateFiles (file : list FileItem)
| readFiles (paths : list string).

Inductive Role := user | assistant.

Record TextContent := { text : string }.

(** A message is a text message whose content is a string or an array of
    parts, or a tool call message, or a tool result message. *)
Inductive Message :=
| TextMessage (role : Role) (body : string + list TextContent)
| ToolCallMessage (tools : list ToolCall)
| ToolResultMessage (output : option string).

(** The result of one agent turn: what the model produced and what the tools
    it called handed back. *)
Record AgentResult := {
  output : list Message;
  toolCalls : list (option string);
}.

Inductive MessageRole := USER | ASSISTANT.
Inductive MessageType := RESULT | ERROR.

Record DbMessage := {
  db_role : MessageRole;
  db_content : string;
}.

Record FragmentData := {
  fragment_sandboxUrl : string;
  fragment_title : string;
  fragment_files : gmap string string;
}.

(** The [data] argument of [prisma.message.create]. *)
Record MessageData := {
  msg_projectId : string;
  msg_content : string;
  msg_role : MessageRole;
  msg_type : MessageType;
  msg_fragment : option FragmentData;
}.

Record Event := {
  event_projectId : string;
  event_value : string;
}.

(** What [codeAgentFunction] returns to its caller. *)
Record Output := {
  out_url : string;
  out_title : string;
  out_files : gmap string string;
  out_summary : string;
}.

Inductive chunk :=
| Stdout (d : string)
| Stderr (d : string).

Record CommandResult := {
  stdout : string;
  stderr : string;
  exitCode : Z;
}.

(** What running a command delivers: the chunks handed to the [onStdout] and
    [onStderr] callbacks, in order, and then the result or the exception. *)
Record CommandRun := {
  emitted : list chunk;
  ended : outcome CommandResult;
}.

Inductive Generator := fragmentTitleGenerator | responseGenerator.

(** ** The collaborators *)

(** Everything outside the process: the sandbox service, the record store and
    the language model. [W] is the state of that world; an operation takes
    the world, returns or throws, and leaves a world behind.

    [getSandbox] and [lastAssistantTextMessageContent] are the two helpers the
    source imports from [./utils]; the first connects to the sandbox of the
    given id, the second extracts the text of the last assistant message of a
    turn, if there is one. [message_findMany] is the one query of the source:
    the messages of a project, newest first, five at most. [codeAgent_infer]
    is one inference of the coding agent over the history, the results of
    the earlier turns and the input. [part_toString] is the string conversion
    that [Array.prototype.join] applies to a part of a message content. *)
Class Environment (W : Type) := {
  Sandbox_create : string → W → outcome string * W;
  Sandbox_setTimeout : Z → W → outcome () * W;
  getSandbox : string → W → outcome () * W;
  commands_run : string → W → CommandRun * W;
  files_write : string → string → W → outcome () * W;
  files_read : string → W → outcome string * W;
  getHost : Z → W → outcome string * W;
  message_findMany : string → W → outcome (list DbMessage) * W;
  message_create : MessageData → W → outcome () * W;
  codeAgent_infer :
    list Message → list AgentResult → string → W → outcome (list Message) * W;
  generator_run : Generator → string → W → outcome (list Message) * W;
  lastAssistantTextMessageContent : AgentResult → option string;
  part_toString : TextContent → string;
}.

(** ** Process memory and the monad of the run *)

Section Run.
Context {W : Type} `{Environment W}.

Record Mem := {
  objects : gmap loc (gmap string string);
  data : AgentState;
  messages : list Message;
  results : list AgentResult;
  persisted : list MessageData;
  world : W;
}.

(** Updates of one field. *)
Definition with_objects (m : Mem) (h : gmap loc (gmap string string)) : Mem :=
  {| objects := h; data := data m; messages := messages m;
     results := results m; persisted := persisted m; world := world m |}.

Definition with_data (m : Mem) (d : AgentState) : Mem :=
  {| objects := objects m; data := d; messages := messages m;
     results := results m; persisted := persisted m; world := world m |}.

Definition with_messages (m : Mem) (ms : list Message) : Mem :=
  {| objects := objects m; data := data m; messages := ms;
     results := results m; persisted := persisted m; world := world m |}.

Definition with_results (m : Mem) (rs : list AgentResult) : Mem :=
  {| objects := objects m; data := data m; messages := messages m;
     results := rs; persisted := persisted m; world := world m |}.

Definition with_persisted (m : Mem) (ps : list MessageData) : Mem :=
  {| objects := objects m; data := data m; messages := messages m;
     results := results m; persisted := ps; world := world m |}.

Definition with_world (m : Mem) (w : W) : Mem :=
  {| objects := objects m; data := data m; messages := messages m;
     results := results m; persisted := persisted m; world := w |}.

Definition M (A : Type) : Type := Mem → outcome A * Mem.

Definition ret {A} (a : A) : M A := λ m, (Returns a, m).

Definition bind {A B} (c : M A) (k : A → M B) : M B :=
  λ m, match c m with
       | (Returns a, m') => k a m'
       | (Throws e, m') => (Throws e, m')
       end.

(** [try { c } catch (e) { h e }] *)
Definition try_catch {A} (c : M A) (h : string → M A) : M A :=
  λ m, match c m with
       | (Returns a, m') => (Returns a, m')
       | (Throws e, m') => h e m'
       end.

Definition lift {A} (o : outcome A) : M A := λ m, (o, m).

(** A call to a collaborator. *)
Definition call {A} (op : W → outcome A * W) : M A :=
  λ m, let '(r, w) := op (world m) in (r, with_world m w).

(** A call to a collaborator that reports failure in its answer. *)
Definition call_total {A} (op : W → A * W) : M A :=
  call (λ w, let '(r, w') := op w in (Returns r, w')).

(** Run [c] and look at how it ended. *)
Definition attempt {A} (c : M A) : M (outcome A) :=
  λ m, let '(r, m') := c m in (Returns r, m').

Definition get : M Mem := λ m, (Returns m, m).

Definition set_objects (h : gmap loc (gmap string string)) : M () :=
  λ m, (Returns (), with_objects m h).

Definition set_data (d : AgentState) : M () :=
  λ m, (Returns (), with_data m d).

Definition set_messages (ms : list Message) : M () :=
  λ m, (Returns (), with_messages m ms).

Definition set_results (rs : list AgentResult) : M () :=
  λ m, (Returns (), with_results m rs).

Definition set_persisted (ps : list MessageData) : M () :=
  λ m, (Returns (), with_persisted m ps).

End Run.

Arguments Mem W : clear implicits.
Arguments M W A : clear implicits.

(** The summary of the state, and the state with another summary. *)
Definition summary_of {W} (m : Mem W) : string := summary (data m).

Definition with_summary {W} (m : Mem W) (s : string) : Mem W :=
  with_data m {| summary := s; files := files (data m) |}.

Declare Scope run_scope.
Delimit Scope run_scope with run.
Notation "x <- c ;; k" := (bind c (λ x, k))
  (at level 100, c at next level, right associativity) : run_scope.
Notation "c ;; k" := (bind c (λ _, k))
  (at level 100, right associativity) : run_scope.

(** ** The tools *)

Section Tools.
Context {W : Type} `{Environment W}.

(** The id of the sandbox of this run, captured by the three handlers. *)
Variable sandboxId : string.

Local Open Scope run_scope.

(** The object a dictionary variable refers to. *)
Definition object_at (h : gmap loc (gmap string string)) (l : loc)
  : gmap string string :=
  default ∅ (h !! l).

(** [obj[key] = value] on a plain object whose own properties are [obj].
    A key the object owns is overwritten and a new key is added, with one
    exception: [__proto__], when the object does not own it, names the
    accessor of the prototype, and assigning a string through it adds
    nothing. *)
Definition assign (obj : gmap string string) (key value : string)
  : gmap string string :=
  if decide (key = "__proto__" ∧ obj !! key = None) then obj
  else <[key := value]> obj.

(** [obj[key] = value] on the object at [l]. *)
Definition object_set (l : loc) (key value : string) : M W () :=
  m <- get ;;
  set_objects (<[l := assign (object_at (objects m) l) key value]> (objects m)).

(** [{}]: a fresh empty object. *)
Definition object_new : M W loc :=
  m <- get ;;
  let l := fresh (dom (objects m)) in
  set_objects (<[l := ∅]> (objects m)) ;;
  ret l.

(** A new object with the properties [obj]. *)
Definition object_from (obj : gmap string string) : M W loc :=
  m <- get ;;
  let l := fresh (dom (objects m)) in
  set_objects (<[l := obj]> (objects m)) ;;
  ret l.

(** [network.state.data.files], the dictionary the state refers to now. *)
Definition state_files (m : Mem W) : gmap string string :=
  object_at (objects m) (files (data m)).

(** What the function is handed for the value a step returned: the value
    read back from its JSON text. A string, a list of messages or nothing
    comes back as it is; a dictionary comes back as a new object with the
    same properties. [revive h a] reads back [a], a value of the heap [h]. *)
Class Revivable (A : Type) :=
  revive : gmap loc (gmap string string) → A → M W A.

#[global] Instance revive_string : Revivable string := λ _ s, ret s.

#[global] Instance revive_unit : Revivable () := λ _ u, ret u.

#[global] Instance revive_messages : Revivable (list Message) :=
  λ _ ms, ret ms.

#[global] Instance revive_jsval : Revivable jsval :=
  λ h v, match v with
         | VObject l => l' <- object_from (object_at h l) ;; ret (VObject l')
         | VString s => ret (VString s)
         end.

(** Modelled from the spec: [step.run(id, f)], the durable step of the
    substrate the function runs on, which is not among the sources. The
    design document takes it as a run-a-unit-of-work-with-memoization
    capability: the unit of work [f] runs once, what it did to the outside
    (the sandbox, the store) stays done, and the function goes on from the
    memoized result. The memory the unit ran in is not the memory the
    function goes on with: assignments the unit made to objects of the
    process are not seen after the step, and an object it returned is seen
    as a copy. A unit that throws makes the step throw; retries are the
    substrate's. *)
Definition step_run {A} `{Revivable A} (id : string) (f : M W A) : M W A :=
  λ m, let '(r, m1) := f m in
       let m2 := with_world (with_persisted m (persisted m1)) (world m1) in
       match r with
       | Returns a => revive (objects m1) a m2
       | Throws e => (Throws e, m2)
       end.

(** [step?.run(id, f)]: [undefined] when the handler was given no step
    tools. *)
Definition optional_step_run {A} `{Revivable A} (step : option ()) (id : string)
    (f : M W A) : M W (option A) :=
  match step with
  | Some _ => a <- step_run id f ;; ret (Some a)
  | None => ret None
  end.

(** *** terminal *)

Record Buffers := { buf_stdout : string; buf_stderr : string }.

(** The [onStdout] and [onStderr] callbacks. *)
Definition on_chunk (buffers : Buffers) (c : chunk) : Buffers :=
  match c with
  | Stdout d =>
      {| buf_stdout := buf_stdout buffers +:+ d;
         buf_stderr := buf_stderr buffers |}
  | Stderr d =>
      {| buf_stdout := buf_stdout buffers;
         buf_stderr := buf_stderr buffers +:+ d |}
  end.

Definition newline : string := String "010"%char "".

(** The template literal of the [catch] block; its [\s] is the letter s. *)
Definition command_failed (e : string) (buffers : Buffers) : string :=
  "Command failed: " +:+ e +:+ " stdout: " +:+ buf_stdout buffers
    +:+ newline +:+ "stderr: " +:+ buf_stderr buffers.

(** The body of the [terminal] step. [buffers] is local to one invocation;
    the callbacks fill it while the command runs, and the [catch] block reads
    what has been filled in by the time of the throw. *)
Definition terminal_step (command : string) : M W string :=
  let buffers := {| buf_stdout := ""; buf_stderr := "" |} in
  connected <- attempt (call (getSandbox sandboxId)) ;;
  match connected with
  | Throws e => ret (command_failed e buffers)
  | Returns _ =>
      run <- call_total (commands_run command) ;;
      let buffers := foldl on_chunk buffers (emitted run) in
      match ended run with
      | Returns result => ret (stdout result)
      | Throws e => ret (command_failed e buffers)
      end
  end.

Definition terminal_handler (step : option ()) (command : string)
  : M W (option string) :=
  optional_step_run step "terminal" (terminal_step command).

(** *** createOrUpdateFiles *)

(** The [for] loop of the step: write the file to the sandbox, then record it
    in [updatedFiles]. A write that throws leaves the loop. *)
Fixpoint write_each (updatedFiles : loc) (file : list FileItem) : M W () :=
  match file with
  | [] => ret ()
  | fileItem :: rest =>
      call (files_write (path fileItem) (content fileItem)) ;;
      object_set updatedFiles (path fileItem) (content fileItem) ;;
      write_each updatedFiles rest
  end.

(** The body of the step. [network.state.data.files] is an object, and an
    object is truthy, so [network.state.data.files || {}] is that very object:
    within the step [updatedFiles] is a second name for the dictionary of the
    state. *)
Definition createOrUpdateFiles_step (file : list FileItem) : M W jsval :=
  try_catch
    (m <- get ;;
     let updatedFiles := files (data m) in
     call (getSandbox sandboxId) ;;
     write_each updatedFiles file ;;
     ret (VObject updatedFiles))
    (λ e, ret (VString ("Error: " +:+ e))).

(** The handler commits the mapping the step handed back, when it is one,
    and has no [return]: the model is handed [undefined]. *)
Definition createOrUpdateFiles_handler (step : option ()) (file : list FileItem)
  : M W (option string) :=
  newFiles <- optional_step_run step "createOrUpdateFiles"
                (createOrUpdateFiles_step file) ;;
  match newFiles with
  | Some (VObject l) =>
      (* typeof newFiles === "object" *)
      m <- get ;;
      set_data {| summary := summary (data m); files := l |}
  | Some (VString _) | None => ret ()
  end ;;
  ret None.

(** *** readFiles *)

Fixpoint read_each (paths : list string) (contents : list FileContent)
  : M W (list FileContent) :=
  match paths with
  | [] => ret contents
  | file :: rest =>
      content <- call (files_read file) ;;
      read_each rest (contents ++ [{| fc_path := file; fc_content := content |}])
  end.

Definition readFiles_step (paths : list string) : M W string :=
  try_catch
    (call (getSandbox sandboxId) ;;
     contents <- read_each paths [] ;;
     ret (JSON_stringify contents))
    (λ e, ret ("Error: " +:+ e)).

Definition readFiles_handler (step : option ()) (paths : list string)
  : M W (option string) :=
  optional_step_run step "readFiles" (readFiles_step paths).

(** One tool invocation, dispatched on the tool's name. *)
Definition invoke (step : option ()) (t : ToolCall) : M W (option string) :=
  match t with
  | terminal command => terminal_handler step command
  | createOrUpdateFiles file => createOrUpdateFiles_handler step file
  | readFiles paths => readFiles_handler step paths
  end.

(** The tool invocations of one turn, in the order the model asked for them. *)
Fixpoint invoke_all (step : option ()) (ts : list ToolCall)
  : M W (list (option string)) :=
  match ts with
  | [] => ret []
  | t :: rest =>
      r <- invoke step t ;;
      rs <- invoke_all step rest ;;
      ret (r :: rs)
  end.

(** ** The completion detector and the router *)

Definition sentinel : string := "<task_summary>".

(** [lifecycle.onResponse]; [network] tells whether the agent runs inside a
    network. *)
Definition onResponse (result : AgentResult) (network : bool)
  : M W AgentResult :=
  let lastAssistantMessageText := lastAssistantTextMessageContent result in
  match lastAssistantMessageText with
  | Some t =>
      if truthy t && network then
        if includes t sentinel then
          (* network.state.data.summary = lastAssistantMessageText *)
          m <- get ;;
          set_data {| summary := t; files := files (data m) |}
        else ret ()
      else ret ()
  | None => ret ()
  end ;;
  ret result.

Inductive Agent := codeAgent.

(** [router]: no agent once [summary] is truthy. *)
Definition router : M W (option Agent) :=
  m <- get ;;
  if truthy (summary (data m)) then ret None else ret (Some codeAgent).

End Tools.

(** ** The network loop and the run *)

Section Network.
Context {W : Type} `{Environment W}.

Local Open Scope run_scope.

Inductive phase :=
| TURN_PENDING
| AGENT_EXECUTING
| COMPLETION_CHECK (result : AgentResult)
| DONE.

Record Loop := { at_phase : phase; counter : nat }.

(** [maxIter: 15], the iteration cap the network is created with. *)
Definition maxIter : nat := 15.

(** The tool calls a model output asks for. *)
Fixpoint requested (out : list Message) : list ToolCall :=
  match out with
  | [] => []
  | ToolCallMessage tools :: rest => tools ++ requested rest
  | _ :: rest => requested rest
  end.

(** Modelled from the spec: the loop of [createNetwork(...).run], which
    belongs to the agent library and is not among the sources. This is the
    state machine of the design document (section 4.4): from TURN_PENDING the
    router selects the coding agent or nobody (DONE); AGENT_EXECUTING is one
    inference over history and state followed by the tool invocations it
    asks for; COMPLETION_CHECK runs the completion detector on the turn,
    increments the iteration counter and forces DONE when the counter reaches
    the cap. *)
Definition transition (sandboxId : string) (step : option ()) (cap : nat)
    (input : string) (c : Loop) : M W Loop :=
  match at_phase c with
  | TURN_PENDING =>
      next <- router ;;
      match next with
      | None => ret {| at_phase := DONE; counter := counter c |}
      | Some codeAgent =>
          ret {| at_phase := AGENT_EXECUTING; counter := counter c |}
      end
  | AGENT_EXECUTING =>
      m <- get ;;
      out <- call (codeAgent_infer (messages m) (results m) input) ;;
      outs <- invoke_all sandboxId step (requested out) ;;
      ret {| at_phase := COMPLETION_CHECK {| output := out; toolCalls := outs |};
             counter := counter c |}
  | COMPLETION_CHECK result =>
      result <- onResponse result true ;;
      m <- get ;;
      set_results (results m ++ [result]) ;;
      let counter' := counter c + 1 in
      if (cap <=? counter')%nat
      then ret {| at_phase := DONE; counter := counter' |}
      else ret {| at_phase := TURN_PENDING; counter := counter' |}
  | DONE => ret c
  end.

(** Transitions are taken, one after the other, until the loop is DONE. *)
Fixpoint iterate (fuel : nat) (sandboxId : string) (step : option ())
    (cap : nat) (input : string) (c : Loop) : M W Loop :=
  match fuel with
  | O => ret c
  | S fuel' =>
      match at_phase c with
      | DONE => ret c
      | _ =>
          c' <- transition sandboxId step cap input c ;;
          iterate fuel' sandboxId step cap input c'
      end
  end.

(** Modelled from the spec: [network.run(input, { state })], the state machine
    run from TURN_PENDING with the counter at 0. A turn takes three
    transitions, so [3 * (cap + 1)] of them are more than a run can take. *)
Definition network_run (sandboxId : string) (step : option ()) (cap : nat)
    (input : string) : M W Loop :=
  iterate (3 * S cap) sandboxId step cap input
    {| at_phase := TURN_PENDING; counter := 0 |}.

(** *** The run driver *)

Definition format_message (message : DbMessage) : Message :=
  TextMessage
    (match db_role message with ASSISTANT => assistant | USER => user end)
    (inl (db_content message)).

(** Reading [output[0].type] of an empty output throws. *)
Definition no_first_message : string :=
  "TypeError: Cannot read properties of undefined (reading 'type')".

Definition generateFragmentTitle (fragmentTitleOutput : list Message)
  : outcome string :=
  match fragmentTitleOutput with
  | [] => Throws no_first_message
  | TextMessage _ (inl s) :: _ => Returns s
  | TextMessage _ (inr parts) :: _ =>
      Returns (join_empty (map part_toString parts))
  | _ :: _ => Returns "Fragment"
  end.

Definition generateResponse (responseOutput : list Message) : outcome string :=
  match responseOutput with
  | [] => Throws no_first_message
  | TextMessage _ (inl s) :: _ => Returns s
  | TextMessage _ (inr parts) :: _ =>
      Returns (join_empty (map part_toString parts))
  | _ :: _ => Returns "Here you go!"
  end.

(** [!summary || Object.keys(files || {}).length === 0] *)
Definition isError (m : Mem W) : bool :=
  negb (truthy (summary (data m))) || (size (state_files m) =? 0)%nat.

(** [prisma.message.create({ data })]; [persisted] keeps the records the store
    accepted. *)
Definition create_message (d : MessageData) : M W () :=
  call (message_create d) ;;
  m <- get ;;
  set_persisted (persisted m ++ [d]).

Definition something_went_wrong : string :=
  "Something went wrong. Please try again.".

Definition save_result (event : Event) (is_error : bool) (sandboxUrl : string)
    (fragmentTitleOutput responseOutput : list Message) : M W () :=
  if is_error then
    create_message
      {| msg_projectId := event_projectId event;
         msg_content := something_went_wrong;
         msg_role := ASSISTANT;
         msg_type := ERROR;
         msg_fragment := None |}
  else
    response <- lift (generateResponse responseOutput) ;;
    title <- lift (generateFragmentTitle fragmentTitleOutput) ;;
    m <- get ;;
    create_message
      {| msg_projectId := event_projectId event;
         msg_content := response;
         msg_role := ASSISTANT;
         msg_type := RESULT;
         msg_fragment :=
           Some {| fragment_sandboxUrl := sandboxUrl;
                   fragment_title := title;
                   fragment_files := state_files m |} |}.

(** The memory of the process when the function starts. *)
Definition boot (w : W) : Mem W :=
  {| objects := ∅; data := {| summary := ""; files := 0 |}; messages := [];
     results := []; persisted := []; world := w |}.

(** [createState({ summary: "", files: {} }, { messages })] *)
Definition createState (previousMessages : list Message) : M W () :=
  l <- object_new ;;
  set_data {| summary := ""; files := l |} ;;
  set_messages previousMessages ;;
  set_results [].

(** The function runs as a durable function, so its tools are handed the
    step tools. *)
Definition codeAgentFunction (event : Event) : M W Output :=
  sandboxId <- step_run "get-sandbox-id"
    (sandboxId <- call (Sandbox_create "lovable-test") ;;
     call (Sandbox_setTimeout (60000 * 10 * 1)) ;;
     ret sandboxId) ;;
  previousMessages <- step_run "get-previous-messages"
    (found <- call (message_findMany (event_projectId event)) ;;
     ret (rev (map format_message found))) ;;
  createState previousMessages ;;
  network_run sandboxId (Some ()) maxIter (event_value event) ;;
  result <- get ;;
  fragmentTitleOutput <-
    call (generator_run fragmentTitleGenerator (summary (data result))) ;;
  responseOutput <-
    call (generator_run responseGenerator (summary (data result))) ;;
  let is_error := isError result in
  sandboxUrl <- step_run "get-sandbox-url"
    (call (getSandbox sandboxId) ;;
     host <- call (getHost 3000) ;;
     ret ("http://" +:+ host)) ;;
  step_run "save-result"
    (save_result event is_error sandboxUrl fragmentTitleOutput responseOutput) ;;
  m <- get ;;
  ret {| out_url := sandboxUrl;
         out_title := "Fragment";
         out_files := state_files m;
         out_summary := summary (data m) |}.

End Network.

(** ** An executable environment *)

(** A small world to run the program in: a sandbox that is a path-keyed
    filesystem, with a budget of calls after which it has expired; a model
    that answers from a script; a record store that accepts everything. *)
Module Sim.

Record World := {
  fs : gmap string string;
  ttl : nat;
  script : list (list Message);
  rows : list DbMessage;
  title_output : list Message;
  response_output : list Message;
}.

Definition expired : string := "SandboxError: the sandbox has expired".

Definition with_sandbox (w : World) (fs' : gmap string string) (ttl' : nat)
  : World :=
  {| fs := fs'; ttl := ttl'; script := script w; rows := rows w;
     title_output := title_output w; response_output := response_output w |}.

Definition connect (id : string) (w : World) : outcome () * World :=
  match ttl w with
  | O => (Throws expired, w)
  | S _ => (Returns (), w)
  end.

(** A write to the empty path is rejected. *)
Definition write (p c : string) (w : World) : outcome () * World :=
  match ttl w with
  | O => (Throws expired, w)
  | S n =>
      if truthy p then (Returns (), with_sandbox w (<[p := c]> (fs w)) n)
      else (Throws "InvalidArgumentError: empty path", with_sandbox w (fs w) n)
  end.

Definition read (p : string) (w : World) : outcome string * World :=
  match ttl w with
  | O => (Throws expired, w)
  | S n =>
      match fs w !! p with
      | Some c => (Returns c, with_sandbox w (fs w) n)
      | None => (Throws ("NotFoundError: " +:+ p), with_sandbox w (fs w) n)
      end
  end.

(** [exit 1] prints on both streams and fails; any other command prints its
    own text and succeeds. *)
Definition run (command : string) (w : World) : CommandRun * World :=
  match ttl w with
  | O => ({| emitted := []; ended := Throws expired |}, w)
  | S n =>
      if String.eqb command "exit 1" then
        ({| emitted := [Stdout "partial "; Stderr "boom"; Stdout "output"];
            ended := Throws "CommandExitError: exit status 1" |},
         with_sandbox w (fs w) n)
      else
        ({| emitted := [Stdout command];
            ended := Returns {| stdout := command; stderr := "";
                                exitCode := 0 |} |},
         with_sandbox w (fs w) n)
  end.

Definition infer (history : list Message) (done : list AgentResult)
    (input : string) (w : World) : outcome (list Message) * World :=
  match script w with
  | [] => (Returns [], w)
  | out :: rest =>
      (Returns out,
       {| fs := fs w; ttl := ttl w; script := rest; rows := rows w;
          title_output := title_output w;
          response_output := response_output w |})
  end.

Definition generate (g : Generator) (input : string) (w : World)
  : outcome (list Message) * World :=
  match g with
  | fragmentTitleGenerator => (Returns (title_output w), w)
  | responseGenerator => (Returns (response_output w), w)
  end.

Definition text_of (body : string + list TextContent) : string :=
  match body with
  | inl s => s
  | inr parts => join_empty (map text parts)
  end.

Fixpoint last_assistant_text (out : list Message) : option string :=
  match out with
  | [] => None
  | m :: rest =>
      match last_assistant_text rest with
      | Some t => Some t
      | None =>
          match m with
          | TextMessage assistant body =>
              if truthy (text_of body) then Some (text_of body) else None
          | _ => None
          end
      end
  end.

(** Modelled from the spec: [lastAssistantTextMessageContent] of [./utils],
    which is not among the sources: the most recent assistant-authored text
    of the turn, absent when the turn produced no assistant text. *)
Definition lastAssistantText (result : AgentResult) : option string :=
  last_assistant_text (output result).

#[global] Instance environment : Environment World := {|
  Sandbox_create := λ template w, (Returns "sbx-1", w);
  Sandbox_setTimeout := λ ms w, (Returns (), w);
  getSandbox := connect;
  commands_run := run;
  files_write := write;
  files_read := read;
  getHost := λ port w, (Returns "3000-sbx-1.e2b.app", w);
  message_findMany := λ projectId w, (Returns (rows w), w);
  message_create := λ d w, (Returns (), w);
  codeAgent_infer := infer;
  generator_run := generate;
  lastAssistantTextMessageContent := lastAssistantText;
  part_toString := λ part, "[object Object]";
|}.

Definition says (t : string) : Message := TextMessage assistant (inl t).

(** A run in which the model writes [app.js] and announces completion on its
    second turn. *)
Definition todo_app : World :=
  {| fs := ∅; ttl := 100;
     script :=
       [ [ToolCallMessage
            [createOrUpdateFiles [{| path := "app.js"; content := "todo()" |}]]];
         [says "<task_summary>Built a todo app</task_summary>"] ];
     rows := [{| db_role := USER; db_content := "build a todo app" |}];
     title_output := [says "Todo App"];
     response_output := [says "Here is your todo app."] |}.

(** A run in which the model never announces completion. *)
Definition silent : World :=
  {| fs := ∅; ttl := 100; script := []; rows := [];
     title_output := [says "Untitled"]; response_output := [says "Done."] |}.

Definition event : Event :=
  {| event_projectId := "p1"; event_value := "build a todo app" |}.

(** The memory of a run right after [createState], in the world [w]. *)
Definition fresh_state (w : World) : Mem World := (createState [] (boot w)).2.

(** An invocation whose second write the sandbox rejects. *)
Definition failing_call : list FileItem :=
  [{| path := "a.txt"; content := "x" |}; {| path := ""; content := "y" |}].

(** Two invocations that overwrite one path and add another. *)
Definition two_calls : list (list FileItem) :=
  [ [{| path := "a.txt"; content := "1" |}; {| path := "b.txt"; content := "2" |}];
    [{| path := "a.txt"; content := "3" |}] ].

Definition announcement : string :=
  "<task_summary>Built a todo app</task_summary>".

Definition silent_output : Output :=
  {| out_url := "http://3000-sbx-1.e2b.app"; out_title := "Fragment";
     out_files := ∅; out_summary := "" |}.

Definition todo_output : Output :=
  {| out_url := "http://3000-sbx-1.e2b.app"; out_title := "Fragment";
     out_files := {["app.js" := "todo()"]}; out_summary := announcement |}.

End Sim.

(** * Vocabulary of the statements *)

Open Scope nat_scope.

Section Vocabulary.
Context {W : Type} `{Environment W}.

(** [c] relates the memory it starts from to the memory it leaves, however
    it ends. *)
Definition respects {A} (R : relation (Mem W)) (c : M W A) : Prop :=
  ∀ m r m', c m = (r, m') → R m m'.

(** A call to a collaborator changes the world and nothing else. *)
Definition same_process (m m' : Mem W) : Prop :=
  objects m' = objects m ∧ data m' = data m ∧ messages m' = messages m ∧
  results m' = results m ∧ persisted m' = persisted m.

(** Between [m] and [m'] only the log of persisted records and the world may
    have changed. *)
Definition state_kept (m m' : Mem W) : Prop :=
  objects m' = objects m ∧ data m' = data m ∧ messages m' = messages m ∧
  results m' = results m.

(** A type of values that are read back from their JSON text as they
    are. *)
Class Plain (A : Type) `{!Revivable (W:=W) A} : Prop :=
  revive_plain : ∀ h (a : A), revive h a = ret a.

End Vocabulary.

(** What the callbacks of a command were handed on each stream. *)
Definition stdout_chunks (cs : list chunk) : string :=
  foldr (λ c acc, match c with Stdout d => d +:+ acc | Stderr _ => acc end)
    "" cs.

Definition stderr_chunks (cs : list chunk) : string :=
  foldr (λ c acc, match c with Stderr d => d +:+ acc | Stdout _ => acc end)
    "" cs.

(** The last-write-wins merge of a list of entries into a mapping. *)
Definition merge_files (fs : gmap string string) (items : list FileItem)
  : gmap string string :=
  foldl (λ acc item, assign acc (path item) (content item)) fs items.

(** The content of the last entry written for a path, if there is one. *)
Fixpoint last_write (p : string) (items : list FileItem) : option string :=
  match items with
  | [] => None
  | item :: rest =>
      match last_write p rest with
      | Some c => Some c
      | None => if decide (path item = p) then Some (content item) else None
      end
  end.

Section ToolVocabulary.
Context {W : Type} `{Environment W}.

(** The objects of [m] are in [m'] as they were. *)
Definition heap_kept (m m' : Mem W) : Prop :=
  ∀ l, l ∈ dom (objects m) → objects m' !! l = objects m !! l.

(** What a tool invocation may change in the process: it may add objects
    and make the state refer to another dictionary, which has the keys of the
    one before. *)
Definition tool_frame (m m' : Mem W) : Prop :=
  summary_of m' = summary_of m ∧ messages m' = messages m ∧
  results m' = results m ∧ persisted m' = persisted m ∧
  heap_kept m m' ∧
  dom (state_files m) ⊆ dom (state_files m').

(** The [createOrUpdateFiles] step hands back the mapping, not an error
    string. *)
Definition write_succeeds (sandboxId : string) (file : list FileItem)
    (m : Mem W) : Prop :=
  ∃ l m', createOrUpdateFiles_step sandboxId file m = (Returns (VObject l), m').

(** Every call of a sequence of [createOrUpdateFiles] invocations, made one
    after the other, hands back the mapping. *)
Fixpoint writes_succeed (sandboxId : string) (calls : list (list FileItem))
    (m : Mem W) : Prop :=
  match calls with
  | [] => True
  | file :: rest =>
      write_succeeds sandboxId file m ∧
      writes_succeed sandboxId rest
        (createOrUpdateFiles_handler sandboxId (Some ()) file m).2
  end.

(** The memory the handler leaves when the step handed back the mapping: a
    new object holds the merge, and the state refers to it. *)
Definition committed_memory (file : list FileItem) (m : Mem W) (w : W)
  : Mem W :=
  let l := fresh (dom (objects m)) in
  with_data
    (with_objects (with_world m w)
       (<[l := merge_files (state_files m) file]> (objects m)))
    {| summary := summary (data m); files := l |}.

(** The entries a tool invocation commits to the state: those of a
    [createOrUpdateFiles] invocation whose step handed back the mapping, and
    none for any other invocation. *)
Definition committed_by (sandboxId : string) (step : option ())
    (t : ToolCall) (m : Mem W) : list FileItem :=
  match step, t with
  | Some _, createOrUpdateFiles file =>
      match (createOrUpdateFiles_step sandboxId file m).1 with
      | Returns (VObject _) => file
      | _ => []
      end
  | _, _ => []
  end.

(** The entries the invocations [ts] commit, made one after the other from
    [m], in order. *)
Fixpoint committed (sandboxId : string) (step : option ())
    (ts : list ToolCall) (m : Mem W) : list FileItem :=
  match ts with
  | [] => []
  | t :: rest =>
      (committed_by sandboxId step t m
       ++ committed sandboxId step rest (invoke sandboxId step t m).2)%list
  end.

End ToolVocabulary.

Section LoopVocabulary.
Context {W : Type} `{Environment W}.

(** A computation that never throws. *)
Definition total {A} (c : M W A) : Prop :=
  ∀ m, ∃ a m', c m = (Returns a, m').

(** One transition of the network's state machine that does not throw. *)
Definition step_rel (sandboxId : string) (step : option ()) (cap : nat)
    (input : string) : relation (Loop * Mem W) :=
  λ x y, transition sandboxId step cap input x.1 x.2 = (Returns y.1, y.2).

(** Where a run starts. *)
Definition start (m : Mem W) : Loop * Mem W :=
  ({| at_phase := TURN_PENDING; counter := 0 |}, m).

(** A non-empty summary is only ever seen between turns or at the end. *)
Definition settled (x : Loop * Mem W) : Prop :=
  summary_of x.2 ≠ "" →
  at_phase x.1 = TURN_PENDING ∨ at_phase x.1 = DONE.

(** The counter stays below the cap while the loop runs, counts the results
    appended since [m0], and a loop that is done has a summary or has used
    up the cap. *)
Definition counted (cap : nat) (m0 : Mem W) (x : Loop * Mem W) : Prop :=
  (at_phase x.1 = DONE → counter x.1 ≤ cap) ∧
  (at_phase x.1 ≠ DONE → counter x.1 < cap) ∧
  (at_phase x.1 = DONE → summary_of x.2 ≠ "" ∨ counter x.1 = cap) ∧
  List.length (results x.2) = List.length (results m0) + counter x.1.

(** Transitions a configuration is away from DONE, at most. *)
Definition steps_left (cap : nat) (c : Loop) : nat :=
  match at_phase c with
  | DONE => 0
  | COMPLETION_CHECK _ => 1 + 3 * (cap - (counter c + 1))
  | AGENT_EXECUTING => 2 + 3 * (cap - (counter c + 1))
  | TURN_PENDING => 3 + 3 * (cap - (counter c + 1))
  end.

(** The memory the completion detector leaves. *)
Definition detected (result : AgentResult) (m : Mem W) : Mem W :=
  match lastAssistantTextMessageContent result with
  | Some t => if truthy t && includes t sentinel then with_summary m t else m
  | None => m
  end.

(** What the network loop may change in the process besides the summary and
    the results. *)
Definition loop_frame (m m' : Mem W) : Prop :=
  messages m' = messages m ∧ persisted m' = persisted m ∧
  heap_kept m m' ∧
  dom (state_files m) ⊆ dom (state_files m').

(** The entries committed by the transition taken from [x]: those of the
    tool invocations of the turn, when [x] is about to run one. *)
Definition turn_writes (sandboxId : string) (step : option ())
    (input : string) (x : Loop * Mem W) : list FileItem :=
  match at_phase x.1 with
  | AGENT_EXECUTING =>
      match codeAgent_infer (messages x.2) (results x.2) input (world x.2) with
      | (Returns out, w) =>
          committed sandboxId step (requested out) (with_world x.2 w)
      | (Throws _, _) => []
      end
  | _ => []
  end.

(** A path of the network's state machine, with the entries committed along
    it, in order. *)
Inductive writes_along (sandboxId : string) (step : option ()) (cap : nat)
    (input : string) : Loop * Mem W → list FileItem → Loop * Mem W → Prop :=
| writes_none x : writes_along sandboxId step cap input x [] x
| writes_step x y z es :
    step_rel sandboxId step cap input x y →
    writes_along sandboxId step cap input y es z →
    writes_along sandboxId step cap input x
      (turn_writes sandboxId step input x ++ es)%list z.

End LoopVocabulary.

Section SandboxVocabulary.
Context {W : Type} `{Environment W}.

(** In the world [w], a read of [p] that returns, returns [c]. *)
Definition reads_as (w : W) (p c : string) : Prop :=
  ∀ r w', files_read p w = (Returns r, w') → r = c.

(** What the program expects of the sandbox filesystem: a file reads as it
    was last written; writing another path or connecting to the sandbox does
    not change it. *)
Class SandboxFiles : Prop := {
  read_after_write p c w w' :
    files_write p c w = (Returns (), w') → reads_as w' p c;
  read_after_other_write p c q d w w' :
    q ≠ p → reads_as w p c →
    files_write q d w = (Returns (), w') → reads_as w' p c;
  read_after_connect id p c w r w' :
    reads_as w p c → getSandbox id w = (r, w') → reads_as w' p c;
}.

(** The record the run persists when its outcome is a failure. *)
Definition error_record (event : Event) : MessageData :=
  {| msg_projectId := event_projectId event;
     msg_content := "Something went wrong. Please try again.";
     msg_role := ASSISTANT;
     msg_type := ERROR;
     msg_fragment := None |}.

End SandboxVocabulary.

Arguments SandboxFiles W {_}.

Section CoverageVocabulary.
Context {W : Type} `{Environment W}.

(** The result of [c] and the world it leaves depend on the world alone, not
    on the memory of the process. *)
Definition world_only {A} (c : M W A) : Prop :=
  ∀ m m', world m = world m' →
          (c m).1 = (c m').1 ∧ world (c m).2 = world (c m').2.

(** No record was persisted between [m] and [m']. *)
Definition log_kept (m m' : Mem W) : Prop := persisted m' = persisted m.

(** The final text of a turn when it carries the sentinel. *)
Definition announcement_of (result : AgentResult) : option string :=
  match lastAssistantTextMessageContent result with
  | Some t => if truthy t && includes t sentinel then Some t else None
  | None => None
  end.

(** The announcement of the last turn, among [rs], that made one. *)
Fixpoint last_announcement (rs : list AgentResult) : option string :=
  match rs with
  | [] => None
  | r :: rest =>
      match last_announcement rest with
      | Some t => Some t
      | None => announcement_of r
      end
  end.

(** The completion detector run on the turns [rs], one after the other. *)
Definition detect_all (rs : list AgentResult) (m : Mem W) : Mem W :=
  foldl (λ m r, (onResponse r true m).2) m rs.

(** The summary of a state is empty or carries the sentinel. *)
Definition summary_marked (m : Mem W) : Prop :=
  summary_of m = "" ∨ includes (summary_of m) sentinel = true.

(** When [c] throws, it has persisted no record. *)
Definition throws_keep {A} (c : M W A) : Prop :=
  ∀ m e m', c m = (Throws e, m') → log_kept m m'.

End CoverageVocabulary.

(** ** Worlds and inputs the further properties are run on *)

(** A sandbox that has expired before the run starts. *)
Definition sim_expired : Sim.World := Sim.with_sandbox Sim.silent ∅ 0.

(** A project with two stored messages, as the store returns them: the
    newest first. *)
Definition sim_two_rows : Sim.World :=
  {| Sim.fs := ∅; Sim.ttl := 100; Sim.script := [];
     Sim.rows := [{| db_role := ASSISTANT; db_content := "second" |};
                  {| db_role := USER; db_content := "first" |}];
     Sim.title_output := [Sim.says "Untitled"];
     Sim.response_output := [Sim.says "Done."] |}.

Definition sim_file_a : list FileItem := [{| path := "a.txt"; content := "1" |}].
Definition sim_file_b : list FileItem := [{| path := "b.txt"; content := "2" |}].

(** An invocation that writes a file named [__proto__] after another file;
    the sandbox accepts both writes. *)
Definition sim_proto_call : list FileItem :=
  [{| path := "a.txt"; content := "x" |};
   {| path := "__proto__"; content := "y" |}].

(** A turn that runs a command between two writes, the second of which the
    sandbox rejects. *)
Definition sim_mixed_turn : list ToolCall :=
  [createOrUpdateFiles sim_file_a; terminal "ls"; readFiles ["a.txt"];
   createOrUpdateFiles Sim.failing_call; createOrUpdateFiles sim_file_b].

(** * Properties *)

(** ** Strings *)

Lemma append_nil (t : string) : "" +:+ t = t.
Proof. reflexivity. Qed.

Lemma append_cons (a : ascii) (s t : string) :
  String a s +:+ t = String a (s +:+ t).
Proof. reflexivity. Qed.

Lemma prefix_true_iff (n s : string) :
  String.prefix n s = true ↔ ∃ post, s = n +:+ post.
Proof.
  revert s. induction n as [|a n IH]; intros [|b s]; simpl.
  - split; [intros _; by exists "" | done].
  - split; [intros _; by exists (String b s) | done].
  - split; [done | intros [post Hp]; discriminate].
  - destruct (Ascii.ascii_dec a b) as [->|Hne].
    + rewrite IH. split; intros [post Hp]; exists post;
        rewrite append_cons in *; congruence.
    + split; [done | intros [post Hp]; rewrite append_cons in Hp; congruence].
Qed.

Lemma includes_nil (n : string) :
  includes "" n = String.prefix n "".
Proof. simpl. by destruct n. Qed.

Lemma includes_cons (a : ascii) (s n : string) :
  includes (String a s) n
  = if String.prefix n (String a s) then true else includes s n.
Proof. reflexivity. Qed.

(** [includes] decides the occurrence of the needle as a substring. *)
Lemma includes_true_iff (s n : string) :
  includes s n = true ↔ ∃ pre post, s = pre +:+ n +:+ post.
Proof.
  induction s as [|a s IH].
  - rewrite includes_nil, prefix_true_iff. split.
    + intros [post Hp]. by exists "", post.
    + intros (pre & post & Heq). destruct pre; [|discriminate]. by exists post.
  - rewrite includes_cons.
    destruct (String.prefix n (String a s)) eqn:Hp.
    + split; [intros _ | done].
      apply prefix_true_iff in Hp as [post Hp]. by exists "", post.
    + rewrite IH. split.
      * intros (pre & post & ->). by exists (String a pre), post.
      * intros (pre & post & Heq). destruct pre as [|b pre].
        -- rewrite append_nil in Heq.
           assert (String.prefix n (String a s) = true) as Ht
             by (apply prefix_true_iff; by exists post).
           congruence.
        -- rewrite append_cons in Heq. injection Heq as -> ->.
           by exists pre, post.
Qed.

Lemma includes_sentinel_truthy (t : string) :
  includes t sentinel = true → truthy t = true.
Proof. destruct t; [discriminate | done]. Qed.

Lemma truthy_true_iff (s : string) : truthy s = true ↔ s ≠ "".
Proof. destruct s; simpl; split; congruence. Qed.

Lemma truthy_false_iff (s : string) : truthy s = false ↔ s = "".
Proof. destruct s; simpl; split; congruence. Qed.

(** ** The monad *)

Section Frames.
Context {W : Type} `{Environment W}.

Local Open Scope run_scope.

Lemma respects_ret {A} (R : relation (Mem W)) `{!Reflexive R} (a : A) :
  respects R (ret a).
Proof. intros m r m' [= <- <-]. reflexivity. Qed.

Lemma respects_lift {A} (R : relation (Mem W)) `{!Reflexive R} (o : outcome A) :
  respects R (lift o).
Proof. intros m r m' [= <- <-]. reflexivity. Qed.

Lemma respects_get (R : relation (Mem W)) `{!Reflexive R} : respects R get.
Proof. intros m r m' [= <- <-]. reflexivity. Qed.

Lemma respects_bind {A B} (R : relation (Mem W)) `{!Transitive R}
    (c : M W A) (k : A → M W B) :
  respects R c → (∀ a, respects R (k a)) → respects R (bind c k).
Proof.
  intros Hc Hk m r m'. unfold bind.
  destruct (c m) as [[a|e] m1] eqn:Hcm.
  - intros Hkm. transitivity m1; [by eapply Hc | by eapply Hk].
  - intros [= <- <-]. by eapply Hc.
Qed.

Lemma respects_try_catch {A} (R : relation (Mem W)) `{!Transitive R}
    (c : M W A) (h : string → M W A) :
  respects R c → (∀ e, respects R (h e)) → respects R (try_catch c h).
Proof.
  intros Hc Hh m r m'. unfold try_catch.
  destruct (c m) as [[a|e] m1] eqn:Hcm.
  - intros [= <- <-]. by eapply Hc.
  - intros Hhm. transitivity m1; [by eapply Hc | by eapply Hh].
Qed.

Lemma respects_attempt {A} (R : relation (Mem W)) (c : M W A) :
  respects R c → respects R (attempt c).
Proof.
  intros Hc m r m'. unfold attempt.
  destruct (c m) as [r1 m1] eqn:Hcm. intros [= <- <-]. by eapply Hc.
Qed.

#[global] Instance state_kept_preorder : PreOrder (@state_kept W).
Proof.
  split.
  - by intros m.
  - intros m1 m2 m3 (? & ? & ? & ?) (? & ? & ? & ?). repeat split; congruence.
Qed.

Lemma same_process_state_kept (m m' : Mem W) :
  same_process m m' → state_kept m m'.
Proof. by intros (? & ? & ? & ? & ?). Qed.

#[global] Instance plain_string : Plain (W:=W) string.
Proof. done. Qed.

#[global] Instance plain_unit : Plain (W:=W) ().
Proof. done. Qed.

#[global] Instance plain_messages : Plain (W:=W) (list Message).
Proof. done. Qed.

(** A step whose unit of work leaves the memory of the process alone and
    returns a plain value is that unit of work: only the copy of a returned
    object and the loss of assignments tell a step from its body. *)
Lemma step_run_idle {A} `{Plain (W:=W) A} (id : string) (c : M W A) :
  respects state_kept c → ∀ m, step_run id c m = c m.
Proof.
  intros Hc m. unfold step_run. destruct (c m) as [r m1] eqn:Hcm.
  apply Hc in Hcm as (Ho & Hd & Hm & Hr).
  assert (with_world (with_persisted m (persisted m1)) (world m1) = m1) as ->.
  { destruct m, m1; simpl in *; by subst. }
  destruct r; [by rewrite revive_plain|done].
Qed.

Lemma optional_step_run_idle {A} `{Plain (W:=W) A} (step : option ())
    (id : string) (c : M W A) :
  respects state_kept c →
  ∀ m, optional_step_run step id c m
       = match step with
         | Some _ => (a <- c ;; ret (Some a))%run m
         | None => (Returns None, m)
         end.
Proof.
  intros Hc m. destruct step; [|done]. simpl. unfold bind.
  by rewrite step_run_idle.
Qed.

Lemma respects_optional_step_run {A} `{Plain (W:=W) A} (R : relation (Mem W))
    `{!PreOrder R} (step : option ()) (id : string) (c : M W A) :
  respects state_kept c → respects R c →
  respects R (optional_step_run step id c).
Proof.
  intros Hk Hc m r m'. rewrite optional_step_run_idle by done.
  destruct step.
  - revert m r m'.
    apply respects_bind; [apply _ | done | intros; apply respects_ret; apply _].
  - by intros [= <- <-].
Qed.

Lemma bind_ext_l {A B} (c c' : M W A) (k : A → M W B) :
  (∀ m, c m = c' m) → ∀ m, bind c k m = bind c' k m.
Proof. intros Hc m. unfold bind. by rewrite Hc. Qed.

Lemma bind_ext_r {A B} (c : M W A) (k k' : A → M W B) :
  (∀ a m, k a m = k' a m) → ∀ m, bind c k m = bind c k' m.
Proof. intros Hk m. unfold bind. destruct (c m) as [[a|e] m1]; [apply Hk|done]. Qed.

(** A call to a collaborator changes the world and nothing else. *)
#[global] Instance same_process_preorder : PreOrder (@same_process W).
Proof.
  split.
  - by intros m.
  - intros m1 m2 m3 (? & ? & ? & ? & ?) (? & ? & ? & ? & ?).
    repeat split; congruence.
Qed.

Lemma call_same_process {A} (op : W → outcome A * W) :
  respects same_process (call op).
Proof.
  intros m r m'. unfold call. destruct (op (world m)) as [r1 w1].
  by intros [= <- <-].
Qed.

Lemma call_total_same_process {A} (op : W → A * W) :
  respects same_process (call_total op).
Proof. apply call_same_process. Qed.

Lemma call_result {A} (op : W → outcome A * W) (m : Mem W) r m' :
  call op m = (r, m') → op (world m) = (r, world m') ∧ same_process m m'.
Proof.
  intros Hc. split; [|by eapply call_same_process].
  unfold call in Hc. destruct (op (world m)) as [r1 w1].
  by injection Hc as <- <-.
Qed.

End Frames.

(** ** The tools *)

Lemma string_app_assoc (a b c : string) : (a +:+ b) +:+ c = a +:+ b +:+ c.
Proof.
  induction a as [|x a IH]; [done|].
  rewrite !append_cons. by rewrite IH.
Qed.

Lemma string_app_nil_r (a : string) : a +:+ "" = a.
Proof. induction a as [|x a IH]; [done|]. rewrite append_cons. by rewrite IH. Qed.

Lemma foldl_on_chunk (b : Buffers) (cs : list chunk) :
  foldl on_chunk b cs
  = {| buf_stdout := buf_stdout b +:+ stdout_chunks cs;
       buf_stderr := buf_stderr b +:+ stderr_chunks cs |}.
Proof.
  revert b. induction cs as [|c cs IH]; intros [out err]; simpl.
  - by rewrite !string_app_nil_r.
  - rewrite IH. destruct c; simpl; by rewrite string_app_assoc.
Qed.

Lemma object_at_insert (h : gmap loc (gmap string string)) (l l' : loc)
    (x : gmap string string) :
  object_at (<[l := x]> h) l' = if decide (l' = l) then x else object_at h l'.
Proof.
  unfold object_at. case_decide as Hl.
  - subst. by rewrite lookup_insert_eq.
  - by rewrite lookup_insert_ne.
Qed.

Lemma merge_files_app (fs : gmap string string) (a b : list FileItem) :
  merge_files fs (a ++ b) = merge_files (merge_files fs a) b.
Proof. apply foldl_app. Qed.

Lemma assign_lookup (obj : gmap string string) (k v p : string) :
  assign obj k v !! p
  = if decide (k = "__proto__" ∧ obj !! k = None) then obj !! p
    else if decide (k = p) then Some v else obj !! p.
Proof.
  unfold assign. case_decide; [done|].
  case_decide; subst; [by rewrite lookup_insert_eq | by rewrite lookup_insert_ne].
Qed.

Lemma merge_files_cons (fs : gmap string string) (item : FileItem)
    (rest : list FileItem) :
  merge_files fs (item :: rest)
  = merge_files (assign fs (path item) (content item)) rest.
Proof. reflexivity. Qed.

(** A path holds the content of its last entry, or what it held before when
    it has no entry; [__proto__] is a key only of a mapping that had it. *)
Lemma merge_files_lookup (fs : gmap string string) (items : list FileItem)
    (p : string) :
  merge_files fs items !! p
  = if decide (p = "__proto__" ∧ fs !! p = None) then None
    else match last_write p items with Some c => Some c | None => fs !! p end.
Proof.
  revert fs. induction items as [|item rest IH]; intros fs.
  - simpl. case_decide as Hp; [by destruct Hp|done].
  - rewrite merge_files_cons, IH, assign_lookup. simpl.
    destruct (decide (path item = "__proto__" ∧ fs !! path item = None))
      as [[Hk Hn]|Hk].
    + destruct (decide (p = "__proto__" ∧ fs !! p = None)) as [|Hp]; [done|].
      destruct (last_write p rest); [done|].
      destruct (decide (path item = p)) as [Hkp|Hkp]; [|done].
      subst p. destruct Hp. by split.
    + destruct (decide (path item = p)) as [<-|Hkp].
      * rewrite decide_False by (by intros [_ ?]).
        rewrite decide_False by done.
        by destruct (last_write (path item) rest).
      * destruct (decide (p = "__proto__" ∧ fs !! p = None)); [done|].
        by destruct (last_write p rest).
Qed.

Lemma merge_files_lookup_ne (fs : gmap string string) (items : list FileItem)
    (p : string) :
  p ≠ "__proto__" →
  merge_files fs items !! p
  = match last_write p items with Some c => Some c | None => fs !! p end.
Proof.
  intros Hp. rewrite merge_files_lookup. by rewrite decide_False by (by intros [? _]).
Qed.

Lemma merge_files_dom (fs : gmap string string) (items : list FileItem) :
  dom fs ⊆ dom (merge_files fs items).
Proof.
  revert fs. induction items as [|item rest IH]; intros fs; [done|].
  rewrite merge_files_cons. etrans; [|apply IH].
  unfold assign. case_decide; [done|]. rewrite dom_insert. set_solver.
Qed.

Lemma last_write_elem (p c : string) (items : list FileItem) :
  last_write p items = Some c →
  ∃ item, item ∈ items ∧ path item = p ∧ content item = c.
Proof.
  induction items as [|item rest IH]; [done|]. simpl.
  destruct (last_write p rest) as [c'|].
  - intros [= ->]. destruct IH as (x & ? & ? & ?); [done|].
    exists x. split; [by right|done].
  - case_decide; [|done]. intros [= <-]. exists item. split; [by left|done].
Qed.

(** The merge never invents an entry. *)
Lemma merge_files_elem (fs : gmap string string) (items : list FileItem)
    (p c : string) :
  merge_files fs items !! p = Some c →
  fs !! p = Some c ∨ ∃ item, item ∈ items ∧ path item = p ∧ content item = c.
Proof.
  rewrite merge_files_lookup. case_decide; [done|].
  destruct (last_write p items) as [c'|] eqn:Hl; [|by left].
  intros [= ->]. right. by apply last_write_elem.
Qed.

Section ToolFacts.
Context {W : Type} `{Environment W}.
Variable sandboxId : string.

Local Open Scope run_scope.

#[global] Instance heap_kept_preorder : PreOrder (@heap_kept W).
Proof.
  split.
  - by intros m l.
  - intros m1 m2 m3 H12 H23 l Hl. rewrite <- (H12 l Hl). apply H23.
    apply elem_of_dom. rewrite (H12 l Hl). by apply elem_of_dom.
Qed.

#[global] Instance tool_frame_preorder : PreOrder (@tool_frame W).
Proof.
  split.
  - by intros m.
  - intros m1 m2 m3 (? & ? & ? & ? & Hh12 & H12) (? & ? & ? & ? & Hh23 & H23).
    repeat split; try congruence.
    + by etrans.
    + by etrans.
Qed.

Lemma same_process_tool_frame (m m' : Mem W) :
  same_process m m' → tool_frame m m'.
Proof.
  intros (Ho & Hd & ? & ? & ?). unfold tool_frame, heap_kept, summary_of, state_files.
  rewrite Ho, Hd. by repeat split.
Qed.

Lemma call_tool_frame {A} (op : W → outcome A * W) :
  respects tool_frame (call op).
Proof.
  intros m r m' Hc. apply same_process_tool_frame.
  by eapply call_same_process.
Qed.

(** *** terminal *)

(** What the [terminal] step hands back, case by case. *)
Lemma terminal_step_run (command : string) (m : Mem W) :
  terminal_step sandboxId command m =
  match getSandbox sandboxId (world m) with
  | (Throws e, w1) =>
      (Returns (command_failed e {| buf_stdout := ""; buf_stderr := "" |}),
       with_world m w1)
  | (Returns _, w1) =>
      let '(run, w2) := commands_run command w1 in
      (Returns
         match ended run with
         | Returns result => stdout result
         | Throws e =>
             command_failed e
               {| buf_stdout := stdout_chunks (emitted run);
                  buf_stderr := stderr_chunks (emitted run) |}
         end,
       with_world m w2)
  end.
Proof.
  unfold terminal_step, bind, attempt, call_total, call.
  destruct (getSandbox sandboxId (world m)) as [[[]|e] w1]; [|done].
  simpl. destruct (commands_run command w1) as [run w2].
  rewrite foldl_on_chunk. simpl.
  by destruct (ended run).
Qed.

(** *** createOrUpdateFiles *)

Lemma object_set_run (l : loc) (k v : string) (m : Mem W) :
  object_set l k v m
  = (Returns (),
     with_objects m (<[l := assign (object_at (objects m) l) k v]> (objects m))).
Proof. reflexivity. Qed.

(** The loop of the step records in the object exactly the entries whose
    write the sandbox accepted, and stops at the first write that throws. *)
Lemma write_each_spec (l : loc) (file : list FileItem) (m : Mem W) r m' :
  write_each l file m = (r, m') →
  ∃ written rest : list FileItem,
    file = (written ++ rest)%list ∧
    data m' = data m ∧ messages m' = messages m ∧ results m' = results m ∧
    persisted m' = persisted m ∧
    (∀ l', object_at (objects m') l'
           = if decide (l' = l) then merge_files (object_at (objects m) l) written
             else object_at (objects m) l') ∧
    match r with
    | Returns _ => rest = []
    | Throws e =>
        ∃ item rest' w w', rest = item :: rest' ∧
          files_write (path item) (content item) w = (Throws e, w')
    end.
Proof.
  revert m. induction file as [|item file IH]; intros m.
  - intros [= <- <-]. exists [], []. repeat split; try done.
    intros l'. by case_decide; subst.
  - simpl. unfold bind at 1.
    destruct (call (files_write (path item) (content item)) m)
      as [[[]|e] m1] eqn:Hw.
    + apply call_result in Hw as (Hw & Ho1 & Hd1 & Hm1 & Hr1 & Hp1).
      unfold bind at 1. rewrite object_set_run.
      intros Hrest. apply IH in Hrest
        as (written & rest & -> & Hd & Hm & Hr & Hp & Hobj & Hend).
      exists (item :: written), rest. simpl in *.
      repeat split; try congruence.
      intros l'. rewrite Hobj, !object_at_insert, Ho1.
      repeat case_decide; subst; done.
    + intros [= <- <-].
      apply call_result in Hw as (Hw & Ho1 & Hd1 & Hm1 & Hr1 & Hp1).
      exists [], (item :: file). repeat split; try done.
      * intros l'. rewrite Ho1. by case_decide; subst.
      * by exists item, file, (world m), (world m1).
Qed.

(** The step as a whole, in the memory it runs in: it always returns, the
    entries accepted before the first failure are in the dictionary it works
    on, and it hands back that dictionary exactly when nothing failed. *)
Lemma createOrUpdateFiles_step_spec (file : list FileItem) (m : Mem W) :
  ∃ v m' (written rest : list FileItem),
    createOrUpdateFiles_step sandboxId file m = (Returns v, m') ∧
    file = (written ++ rest)%list ∧
    data m' = data m ∧ messages m' = messages m ∧ results m' = results m ∧
    persisted m' = persisted m ∧
    state_files m' = merge_files (state_files m) written ∧
    (∀ l, l ≠ files (data m) → object_at (objects m') l = object_at (objects m) l) ∧
    ((v = VObject (files (data m)) ∧ rest = []) ∨
     (∃ e, v = VString ("Error: " +:+ e))).
Proof.
  unfold createOrUpdateFiles_step, try_catch, bind at 1, get.
  unfold bind at 1.
  destruct (call (getSandbox sandboxId) m) as [[[]|e] m1] eqn:Hg;
    apply call_result in Hg as (Hg & Ho1 & Hd1 & Hm1 & Hr1 & Hp1).
  - unfold bind.
    destruct (write_each (files (data m)) file m1) as [[[]|e] m2] eqn:Hw;
      apply write_each_spec in Hw
        as (written & rest & -> & Hd & Hm & Hr & Hp & Hobj & Hend).
    + subst rest. eexists _, _, written, []. split; [done|].
      unfold state_files. rewrite Hobj, Hd, Hd1, decide_True, Ho1 by done.
      repeat split; try congruence; [|by left].
      intros l Hl. by rewrite Hobj, decide_False, Ho1.
    + eexists _, _, written, rest. split; [done|].
      unfold state_files. rewrite Hobj, Hd, Hd1, decide_True, Ho1 by done.
      repeat split; try congruence; [|right; by eexists].
      intros l Hl. by rewrite Hobj, decide_False, Ho1.
  - eexists _, _, [], file. split; [done|].
    unfold state_files. rewrite Ho1, Hd1.
    repeat split; try congruence. right; by eexists.
Qed.

End ToolFacts.

Section HandlerFacts.
Context {W : Type} `{Environment W}.
Variable sandboxId : string.

Local Open Scope run_scope.

Lemma object_from_run (obj : gmap string string) (m : Mem W) :
  object_from obj m
  = (Returns (fresh (dom (objects m))),
     with_objects m (<[fresh (dom (objects m)) := obj]> (objects m))).
Proof. reflexivity. Qed.

(** The handler, case by case: the step always returns; when it hands back
    the mapping, the handler commits the merge of all entries as a new
    object, and when it hands back an error string, the handler leaves the
    memory of the process as it was. *)
Lemma createOrUpdateFiles_handler_run (file : list FileItem) (m : Mem W) :
  ∃ v m1,
    createOrUpdateFiles_step sandboxId file m = (Returns v, m1) ∧
    match v with
    | VObject _ =>
        createOrUpdateFiles_handler sandboxId (Some ()) file m
        = (Returns None, committed_memory file m (world m1))
    | VString s =>
        createOrUpdateFiles_handler sandboxId (Some ()) file m
        = (Returns None, with_world m (world m1)) ∧
        ∃ e, s = "Error: " +:+ e
    end.
Proof.
  destruct (createOrUpdateFiles_step_spec sandboxId file m)
    as (v & m1 & written & rest & Hstep & -> & Hd & Hm & Hr & Hp & Hf & Ho & Hv).
  exists v, m1. split; [done|].
  assert (with_world (with_persisted m (persisted m1)) (world m1)
          = with_world m (world m1)) as Hm2.
  { rewrite Hp. by destruct m. }
  unfold createOrUpdateFiles_handler, optional_step_run, step_run, bind.
  cbv beta. rewrite Hstep, Hm2.
  destruct Hv as [[-> ->]|[e ->]].
  - rewrite app_nil_r in *. unfold revive, revive_jsval, bind.
    rewrite object_from_run. unfold ret, get, set_data. cbv beta iota.
    unfold committed_memory, with_data, with_objects, with_world. simpl.
    unfold state_files in Hf. rewrite Hd in Hf. by rewrite Hf.
  - split; [done|]. by exists e.
Qed.

Lemma committed_memory_files (file : list FileItem) (m : Mem W) (w : W) :
  state_files (committed_memory file m w) = merge_files (state_files m) file.
Proof.
  unfold committed_memory, state_files at 1. simpl.
  by rewrite object_at_insert, decide_True.
Qed.

Lemma committed_memory_heap (file : list FileItem) (m : Mem W) (w : W) :
  heap_kept m (committed_memory file m w).
Proof.
  intros l Hl. unfold committed_memory. simpl.
  apply lookup_insert_ne. intros <-. by apply is_fresh in Hl.
Qed.

(** What one [createOrUpdateFiles] invocation leaves: all entries merged or
    nothing changed. *)
Lemma createOrUpdateFiles_handler_spec (file : list FileItem) (m : Mem W) :
  ∃ m',
    createOrUpdateFiles_handler sandboxId (Some ()) file m = (Returns None, m') ∧
    world m' = world (createOrUpdateFiles_step sandboxId file m).2 ∧
    tool_frame m m' ∧
    ((write_succeeds sandboxId file m ∧
      state_files m' = merge_files (state_files m) file) ∨
     (¬ write_succeeds sandboxId file m ∧ same_process m m' ∧
      ∃ e, (createOrUpdateFiles_step sandboxId file m).1
           = Returns (VString ("Error: " +:+ e)))).
Proof.
  destruct (createOrUpdateFiles_handler_run file m) as (v & m1 & Hstep & Hv).
  rewrite Hstep. destruct v as [l|s].
  - eexists. split; [done|]. split; [done|]. split.
    + unfold tool_frame. rewrite committed_memory_files.
      repeat split; try done.
      * apply committed_memory_heap.
      * apply merge_files_dom.
    + left. split; [by eexists _, _|]. apply committed_memory_files.
  - destruct Hv as (Hh & e & ->). eexists. split; [done|]. split; [done|].
    split; [by apply same_process_tool_frame|].
    right. split; [|split; [done|by exists e]].
    intros (l & m2 & Hs). rewrite Hstep in Hs. discriminate.
Qed.

Lemma createOrUpdateFiles_handler_frame (step : option ())
    (file : list FileItem) :
  respects tool_frame (createOrUpdateFiles_handler sandboxId step file).
Proof.
  intros m r m' Hrun. destruct step as [[]|].
  - destruct (createOrUpdateFiles_handler_spec file m) as (m1 & Hh & _ & Hf & _).
    rewrite Hh in Hrun. by injection Hrun as <- <-.
  - injection Hrun as <- <-. reflexivity.
Qed.

Lemma terminal_step_same_process (command : string) :
  respects same_process (terminal_step sandboxId command).
Proof.
  intros m r m'. rewrite terminal_step_run.
  destruct (getSandbox sandboxId (world m)) as [[[]|e] w1].
  - destruct (commands_run command w1) as [run w2]. by intros [= <- <-].
  - by intros [= <- <-].
Qed.

Lemma read_each_same_process (paths : list string)
    (contents : list FileContent) :
  respects same_process (read_each paths contents).
Proof.
  revert contents. induction paths as [|p paths IH]; intros contents; simpl.
  - apply respects_ret; apply _.
  - apply respects_bind; [apply _ | apply call_same_process | intros; apply IH].
Qed.

Lemma readFiles_step_same_process (paths : list string) :
  respects same_process (readFiles_step sandboxId paths).
Proof.
  apply respects_try_catch; [apply _ | | intros; apply respects_ret; apply _].
  apply respects_bind; [apply _ | apply call_same_process | intros _].
  apply respects_bind; [apply _ | apply read_each_same_process | intros].
  apply respects_ret; apply _.
Qed.

Lemma respects_weaken {A} (R R' : relation (Mem W)) (c : M W A) :
  (∀ m m', R m m' → R' m m') → respects R c → respects R' c.
Proof. intros HR Hc m r m' Hrun. by eapply HR, Hc. Qed.

Lemma terminal_handler_same_process (step : option ()) (command : string) :
  respects same_process (terminal_handler sandboxId step command).
Proof.
  apply respects_optional_step_run; [apply _ | |apply terminal_step_same_process].
  eapply respects_weaken;
    [apply same_process_state_kept | apply terminal_step_same_process].
Qed.

Lemma readFiles_handler_same_process (step : option ()) (paths : list string) :
  respects same_process (readFiles_handler sandboxId step paths).
Proof.
  apply respects_optional_step_run;
    [apply _ | |apply readFiles_step_same_process].
  eapply respects_weaken;
    [apply same_process_state_kept | apply readFiles_step_same_process].
Qed.

(** The handlers of [terminal] and [readFiles] are their steps. *)
Lemma terminal_handler_unfold (step : option ()) (command : string)
    (m : Mem W) :
  terminal_handler sandboxId step command m
  = match step with
    | Some _ => (a <- terminal_step sandboxId command ;; ret (Some a))%run m
    | None => (Returns None, m)
    end.
Proof.
  apply optional_step_run_idle. eapply respects_weaken;
    [apply same_process_state_kept | apply terminal_step_same_process].
Qed.

Lemma readFiles_handler_unfold (step : option ()) (paths : list string)
    (m : Mem W) :
  readFiles_handler sandboxId step paths m
  = match step with
    | Some _ => (a <- readFiles_step sandboxId paths ;; ret (Some a))%run m
    | None => (Returns None, m)
    end.
Proof.
  apply optional_step_run_idle. eapply respects_weaken;
    [apply same_process_state_kept | apply readFiles_step_same_process].
Qed.

Lemma terminal_handler_frame (step : option ()) (command : string) :
  respects tool_frame (terminal_handler sandboxId step command).
Proof.
  eapply respects_weaken;
    [apply same_process_tool_frame | apply terminal_handler_same_process].
Qed.

Lemma readFiles_handler_frame (step : option ()) (paths : list string) :
  respects tool_frame (readFiles_handler sandboxId step paths).
Proof.
  eapply respects_weaken;
    [apply same_process_tool_frame | apply readFiles_handler_same_process].
Qed.

(** No tool touches the summary, the results, the history or the records,
    nor any object there is; the dictionary of the state only gains keys. *)
Lemma invoke_frame (step : option ()) (t : ToolCall) :
  respects tool_frame (invoke sandboxId step t).
Proof.
  destruct t; simpl.
  - apply terminal_handler_frame.
  - apply createOrUpdateFiles_handler_frame.
  - apply readFiles_handler_frame.
Qed.

Lemma invoke_all_frame (step : option ()) (ts : list ToolCall) :
  respects tool_frame (invoke_all sandboxId step ts).
Proof.
  induction ts as [|t ts IH]; simpl.
  - apply respects_ret; apply _.
  - apply respects_bind; [apply _ | apply invoke_frame | intros].
    apply respects_bind; [apply _ | apply IH | intros].
    apply respects_ret; apply _.
Qed.

Lemma optional_step_run_total {A} `{Plain (W:=W) A} (step : option ())
    (id : string) (c : M W A) :
  respects state_kept c → total c → total (optional_step_run step id c).
Proof.
  intros Hk Hc m. rewrite optional_step_run_idle by done.
  destruct step; [|by eexists _, _].
  unfold bind. destruct (Hc m) as (a & m' & ->). by eexists _, _.
Qed.

Lemma try_catch_total {A} (c : M W A) (h : string → M W A) :
  (∀ e, total (h e)) → total (try_catch c h).
Proof.
  intros Hh m. unfold try_catch. destruct (c m) as [[a|e] m1].
  - by eexists _, _.
  - apply Hh.
Qed.

(** A tool failure never leaves the handler as an exception. *)
Lemma invoke_total (step : option ()) (t : ToolCall) :
  total (invoke sandboxId step t).
Proof.
  destruct t as [command|file|paths]; simpl.
  - intros m. rewrite terminal_handler_unfold. destruct step; [|by eexists _, _].
    unfold bind. rewrite terminal_step_run.
    destruct (getSandbox sandboxId (world m)) as [[[]|e] w1].
    + destruct (commands_run command w1) as [run w2]. by eexists _, _.
    + by eexists _, _.
  - intros m. destruct step as [[]|].
    + destruct (createOrUpdateFiles_handler_spec file m) as (m' & -> & _).
      by eexists _, _.
    + by eexists _, _.
  - intros m. rewrite readFiles_handler_unfold. destruct step; [|by eexists _, _].
    unfold bind.
    destruct (try_catch_total
                (call (getSandbox sandboxId) ;;
                 contents <- read_each paths [] ;;
                 ret (JSON_stringify contents))%run
                (λ e, ret ("Error: " +:+ e))) with (m := m) as (a & m' & Ha).
    { intros e m0. by eexists _, _. }
    unfold readFiles_step. rewrite Ha. by eexists _, _.
Qed.

Lemma invoke_all_total (step : option ()) (ts : list ToolCall) :
  total (invoke_all sandboxId step ts).
Proof.
  induction ts as [|t ts IH]; intros m; simpl.
  - by eexists _, _.
  - unfold bind. destruct (invoke_total step t m) as (r & m1 & ->).
    destruct (IH m1) as (rs & m2 & ->). by eexists _, _.
Qed.

(** *** The completion detector and the router *)

Lemma onResponse_run (result : AgentResult) (network : bool) (m : Mem W) :
  onResponse result network m
  = (Returns result, if network then detected result m else m).
Proof.
  unfold onResponse, detected.
  destruct (lastAssistantTextMessageContent result) as [t|];
    [|by destruct network].
  destruct (truthy t), network; simpl; try done.
  by destruct (includes t sentinel).
Qed.

Lemma router_run (m : Mem W) :
  router m
  = (Returns (if truthy (summary_of m) then None else Some codeAgent), m).
Proof. unfold router, bind, get, summary_of. by destruct (truthy _). Qed.

Lemma detected_frame (result : AgentResult) (m : Mem W) :
  objects (detected result m) = objects m ∧
  files (data (detected result m)) = files (data m) ∧
  messages (detected result m) = messages m ∧
  results (detected result m) = results m ∧
  persisted (detected result m) = persisted m ∧
  world (detected result m) = world m.
Proof.
  unfold detected. destruct (lastAssistantTextMessageContent result); [|done].
  by destruct (truthy _ && includes _ _).
Qed.

(** The detector leaves the summary alone or sets it to the non-empty text of
    the turn. *)
Lemma detected_summary (result : AgentResult) (m : Mem W) :
  summary_of (detected result m) = summary_of m ∨
  (lastAssistantTextMessageContent result = Some (summary_of (detected result m)) ∧
   includes (summary_of (detected result m)) sentinel = true ∧
   summary_of (detected result m) ≠ "").
Proof.
  unfold detected.
  destruct (lastAssistantTextMessageContent result) as [t|]; [|by left].
  destruct (truthy t) eqn:Ht; [|by left].
  destruct (includes t sentinel) eqn:Hi; [|by left].
  right. simpl. repeat split; try done. by apply truthy_true_iff.
Qed.

End HandlerFacts.

(** ** The network loop *)

Section LoopFacts.
Context {W : Type} `{Environment W}.
Variables (sandboxId : string) (step : option ()) (cap : nat) (input : string).

Local Open Scope run_scope.

#[global] Instance loop_frame_preorder : PreOrder (@loop_frame W).
Proof.
  split.
  - by intros m.
  - intros m1 m2 m3 (? & ? & ? & H12) (? & ? & ? & H23).
    repeat split; try congruence; by etrans.
Qed.

Lemma tool_frame_loop_frame (m m' : Mem W) : tool_frame m m' → loop_frame m m'.
Proof. by intros (? & ? & ? & ? & ? & ?). Qed.

Lemma transition_pending (c : Loop) (m : Mem W) :
  at_phase c = TURN_PENDING →
  transition sandboxId step cap input c m
  = (Returns {| at_phase := if truthy (summary_of m) then DONE
                            else AGENT_EXECUTING;
                counter := counter c |}, m).
Proof.
  intros Hc. unfold transition. rewrite Hc. unfold bind. rewrite router_run.
  by destruct (truthy _).
Qed.

Lemma transition_check (c : Loop) (result : AgentResult) (m : Mem W) :
  at_phase c = COMPLETION_CHECK result →
  transition sandboxId step cap input c m
  = (Returns {| at_phase := if cap <=? counter c + 1 then DONE
                            else TURN_PENDING;
                counter := counter c + 1 |},
     with_results (detected result m) (results m ++ [result])).
Proof.
  intros Hc. unfold transition. rewrite Hc. unfold bind.
  rewrite onResponse_run. unfold get, set_results.
  destruct (detected_frame result m) as (_ & _ & _ & -> & _).
  by destruct (cap <=? counter c + 1).
Qed.

Lemma transition_done (c : Loop) (m : Mem W) :
  at_phase c = DONE →
  transition sandboxId step cap input c m = (Returns c, m).
Proof. intros Hc. unfold transition. by rewrite Hc. Qed.

(** A turn of the agent: only an inference can throw, and the process is
    changed by the tools alone. *)
Lemma transition_executing (c : Loop) (m : Mem W) r m' :
  at_phase c = AGENT_EXECUTING →
  transition sandboxId step cap input c m = (r, m') →
  tool_frame m m' ∧
  match r with
  | Returns c' =>
      ∃ out outs w',
        codeAgent_infer (messages m) (results m) input (world m)
          = (Returns out, w') ∧
        c' = {| at_phase := COMPLETION_CHECK {| output := out; toolCalls := outs |};
                counter := counter c |}
  | Throws e =>
      ∃ w', codeAgent_infer (messages m) (results m) input (world m)
            = (Throws e, w')
  end.
Proof.
  intros Hc. unfold transition. rewrite Hc. unfold bind at 1, get.
  unfold bind at 1.
  destruct (call (codeAgent_infer (messages m) (results m) input) m)
    as [[out|e] m1] eqn:Hi;
    apply call_result in Hi as [Hi Hs%same_process_tool_frame].
  - unfold bind.
    destruct (invoke_all_total sandboxId step (requested out) m1)
      as (outs & m2 & Ht).
    rewrite Ht. intros [= <- <-]. split.
    + etrans; [done|]. by eapply invoke_all_frame.
    + by eexists _, _, _.
  - intros [= <- <-]. split; [done|]. by eexists.
Qed.

(** A turn that returns has run the invocations the inference asked for. *)
Lemma transition_executing_returns (c : Loop) (m : Mem W) c' m' :
  at_phase c = AGENT_EXECUTING →
  transition sandboxId step cap input c m = (Returns c', m') →
  ∃ out w,
    codeAgent_infer (messages m) (results m) input (world m) = (Returns out, w) ∧
    m' = (invoke_all sandboxId step (requested out) (with_world m w)).2.
Proof.
  intros Hc. unfold transition. rewrite Hc. unfold bind at 1, get.
  unfold bind at 1, call.
  destruct (codeAgent_infer (messages m) (results m) input (world m))
    as [[out|e] w]; [|done].
  unfold bind. cbv beta.
  destruct (invoke_all_total sandboxId step (requested out) (with_world m w))
    as (outs & m2 & Ht).
  rewrite Ht. intros [= <- <-]. exists out, w. by rewrite Ht.
Qed.

Lemma step_rel_cases (x y : Loop * Mem W) :
  step_rel sandboxId step cap input x y →
  match at_phase x.1 with
  | TURN_PENDING =>
      y.2 = x.2 ∧ counter y.1 = counter x.1 ∧
      at_phase y.1
      = (if truthy (summary_of x.2) then DONE else AGENT_EXECUTING)
  | AGENT_EXECUTING =>
      tool_frame x.2 y.2 ∧ counter y.1 = counter x.1 ∧
      ∃ result, at_phase y.1 = COMPLETION_CHECK result
  | COMPLETION_CHECK result =>
      y.2 = with_results (detected result x.2) (results x.2 ++ [result]) ∧
      counter y.1 = counter x.1 + 1 ∧
      at_phase y.1 = (if cap <=? counter x.1 + 1 then DONE else TURN_PENDING)
  | DONE => y = x
  end.
Proof.
  destruct x as [c m], y as [c' m']. unfold step_rel. simpl.
  destruct (at_phase c) eqn:Hc.
  - rewrite transition_pending by done. by intros [= <- <-].
  - intros Ht. apply transition_executing in Ht as (Hf & out & outs & w' & _ & ->);
      [|done].
    simpl. split; [done|]. split; [done|]. by eexists.
  - erewrite transition_check by done. by intros [= <- <-].
  - rewrite transition_done by done. by intros [= <- <-].
Qed.

(** The summary changes only in the completion check, and then it becomes the
    text of that turn, which carries the sentinel. *)
Lemma step_summary_change (x y : Loop * Mem W) :
  step_rel sandboxId step cap input x y →
  summary_of y.2 ≠ summary_of x.2 →
  ∃ result,
    at_phase x.1 = COMPLETION_CHECK result ∧
    lastAssistantTextMessageContent result = Some (summary_of y.2) ∧
    includes (summary_of y.2) sentinel = true.
Proof.
  destruct x as [c m], y as [c' m']. intros Hs%step_rel_cases Hne.
  simpl in *. destruct (at_phase c) eqn:Hc.
  - by destruct Hs as (-> & _).
  - by destruct Hs as ((Hd & _) & _).
  - destruct Hs as (-> & _). exists result. split; [done|].
    change (summary_of (with_results (detected result m) (results m ++ [result])))
      with (summary_of (detected result m)) in *.
    by destruct (detected_summary result m) as [?|(? & ? & ?)].
  - by injection Hs as -> ->.
Qed.

Lemma step_settled (x y : Loop * Mem W) :
  step_rel sandboxId step cap input x y →
  settled x →
  settled y ∧ (summary_of x.2 ≠ "" → summary_of y.2 = summary_of x.2).
Proof.
  destruct x as [c m], y as [c' m']. intros Hs%step_rel_cases Hx.
  unfold settled in *. simpl in *. destruct (at_phase c) eqn:Hc.
  - destruct Hs as (-> & _ & Hp). split; [|done].
    intros Hne. rewrite Hp.
    apply truthy_true_iff in Hne. rewrite Hne. by right.
  - destruct Hs as ((Hsum & _) & _ & result & Hp).
    rewrite Hsum. split; [|done]. intros Hne. by destruct (Hx Hne).
  - destruct Hs as (-> & _ & Hp). split.
    + intros _. rewrite Hp. destruct (cap <=? _); [by right | by left].
    + intros Hne. by destruct (Hx Hne).
  - injection Hs as -> ->. split; [|done]. intros _. rewrite Hc. by right.
Qed.

Lemma steps_settled (x y : Loop * Mem W) :
  rtc (step_rel sandboxId step cap input) x y →
  settled x →
  settled y ∧ (summary_of x.2 ≠ "" → summary_of y.2 = summary_of x.2).
Proof.
  induction 1 as [x|x y z Hxy Hyz IH]; intros Hx; [done|].
  destruct (step_settled x y Hxy Hx) as [Hy Hsum].
  destruct (IH Hy) as [Hz Hsum']. split; [done|].
  intros Hne. rewrite <- (Hsum Hne). apply Hsum'. by rewrite (Hsum Hne).
Qed.

Lemma step_loop_frame (x y : Loop * Mem W) :
  step_rel sandboxId step cap input x y → loop_frame x.2 y.2.
Proof.
  destruct x as [c m], y as [c' m']. intros Hs%step_rel_cases.
  simpl in *. destruct (at_phase c).
  - destruct Hs as (-> & _). reflexivity.
  - destruct Hs as (Hf & _). by apply tool_frame_loop_frame.
  - destruct Hs as (-> & _).
    destruct (detected_frame result m) as (Ho & Hfi & Hm & _ & Hp & _).
    unfold loop_frame, heap_kept, state_files. simpl. rewrite Ho, Hfi.
    by repeat split.
  - injection Hs as -> ->. reflexivity.
Qed.

Lemma steps_loop_frame (x y : Loop * Mem W) :
  rtc (step_rel sandboxId step cap input) x y → loop_frame x.2 y.2.
Proof.
  induction 1 as [x|x y z Hxy Hyz IH]; [reflexivity|].
  etrans; [by apply step_loop_frame | done].
Qed.

Lemma step_counted (m0 : Mem W) (x y : Loop * Mem W) :
  step_rel sandboxId step cap input x y →
  counted cap m0 x → counted cap m0 y.
Proof.
  destruct x as [c m], y as [c' m'].
  intros Hs%step_rel_cases (Hle & Hlt & Hdone & Hlen). unfold counted.
  simpl in *. destruct (at_phase c) eqn:Hc.
  - destruct Hs as (-> & -> & Hp). rewrite Hp.
    destruct (truthy (summary_of m)) eqn:Ht.
    + apply truthy_true_iff in Ht. repeat split; try done.
      * intros _. specialize (Hlt ltac:(done)). lia.
      * by left.
    + repeat split; try done. intros _. by apply Hlt.
  - destruct Hs as ((_ & _ & Hr & _) & -> & result & Hp). rewrite Hp, Hr.
    repeat split; try done. intros _. by apply Hlt.
  - destruct Hs as (-> & -> & Hp). rewrite Hp.
    specialize (Hlt ltac:(done)). simpl. rewrite length_app. simpl.
    destruct (cap <=? counter c + 1) eqn:Hcap.
    + apply Nat.leb_le in Hcap. repeat split; try done; lia.
    + apply Nat.leb_gt in Hcap. repeat split; try done; lia.
  - injection Hs as -> ->. rewrite Hc. by repeat split.
Qed.

Lemma steps_counted (m0 : Mem W) (x y : Loop * Mem W) :
  rtc (step_rel sandboxId step cap input) x y →
  counted cap m0 x → counted cap m0 y.
Proof.
  induction 1 as [x|x y z Hxy Hyz IH]; [done|].
  intros Hx. apply IH. by eapply step_counted.
Qed.

Lemma start_counted (m0 : Mem W) : 1 ≤ cap → counted cap m0 (start m0).
Proof. intros Hcap. unfold counted, start. simpl. repeat split; try done; lia. Qed.

Lemma start_settled (m0 : Mem W) : settled (start m0).
Proof. intros _. by left. Qed.

(** The run of the loop is a path of the state machine. *)
Lemma iterate_steps (fuel : nat) (c : Loop) (m : Mem W) c' m' :
  iterate fuel sandboxId step cap input c m = (Returns c', m') →
  rtc (step_rel sandboxId step cap input) (c, m) (c', m').
Proof.
  revert c m. induction fuel as [|fuel IH]; intros c m; simpl.
  - intros [= <- <-]. apply rtc_refl.
  - assert (bind (transition sandboxId step cap input c)
              (λ c1, iterate fuel sandboxId step cap input c1) m
            = (Returns c', m') →
            rtc (step_rel sandboxId step cap input) (c, m) (c', m')) as Hgo.
    { unfold bind.
      destruct (transition sandboxId step cap input c m) as [[c1|e] m1] eqn:Ht;
        [|done].
      intros Hrest. eapply rtc_l; [|by apply IH]. done. }
    destruct (at_phase c); try done. intros [= <- <-]. apply rtc_refl.
Qed.

Lemma step_steps_left (x y : Loop * Mem W) :
  step_rel sandboxId step cap input x y →
  at_phase x.1 ≠ DONE → steps_left cap y.1 < steps_left cap x.1.
Proof.
  destruct x as [c m], y as [c' m']. intros Hs%step_rel_cases Hnd.
  unfold steps_left. simpl in *. destruct (at_phase c) eqn:Hc.
  - destruct Hs as (_ & -> & ->). destruct (truthy _); lia.
  - destruct Hs as (_ & -> & result & ->). lia.
  - destruct Hs as (_ & -> & ->).
    destruct (cap <=? counter c + 1) eqn:Hcap; [lia|].
    apply Nat.leb_gt in Hcap. lia.
  - done.
Qed.

(** With enough fuel the loop is left in DONE. *)
Lemma iterate_done (fuel : nat) (c : Loop) (m : Mem W) c' m' :
  steps_left cap c ≤ fuel →
  iterate fuel sandboxId step cap input c m = (Returns c', m') →
  at_phase c' = DONE.
Proof.
  revert c m. induction fuel as [|fuel IH]; intros c m Hfuel; simpl.
  - intros [= <- <-]. unfold steps_left in Hfuel.
    destruct (at_phase c); try done; lia.
  - assert (at_phase c ≠ DONE →
            bind (transition sandboxId step cap input c)
              (λ c1, iterate fuel sandboxId step cap input c1) m
            = (Returns c', m') → at_phase c' = DONE) as Hgo.
    { intros Hnd. unfold bind.
      destruct (transition sandboxId step cap input c m) as [[c1|e] m1] eqn:Ht;
        [|done].
      apply IH.
      pose proof (step_steps_left (c, m) (c1, m1) Ht Hnd) as Hlt.
      simpl in Hlt. lia. }
    destruct (at_phase c) eqn:Hc; try (by apply Hgo).
    by intros [= <- <-].
Qed.

(** The loop throws only when an inference does. *)
Lemma iterate_total (fuel : nat) (c : Loop) :
  (∀ history done w, ∃ out w',
      codeAgent_infer history done input w = (Returns out, w')) →
  total (iterate fuel sandboxId step cap input c).
Proof.
  intros Hinfer. revert c. induction fuel as [|fuel IH]; intros c m; simpl.
  - by eexists _, _.
  - assert (∃ c1 m1, transition sandboxId step cap input c m = (Returns c1, m1))
      as (c1 & m1 & Ht).
    { destruct (at_phase c) eqn:Hc.
      - rewrite transition_pending by done. by eexists _, _.
      - destruct (transition sandboxId step cap input c m) as [[c1|e] m1] eqn:Ht;
          [by eexists _, _|].
        apply transition_executing in Ht as (_ & w' & Ht); [|done].
        destruct (Hinfer (messages m) (results m) (world m)) as (? & ? & Hr).
        congruence.
      - erewrite transition_check by done. by eexists _, _.
      - rewrite transition_done by done. by eexists _, _. }
    destruct (at_phase c); try (by eexists _, _);
      unfold bind; rewrite Ht; apply IH.
Qed.

End LoopFacts.

(** ** JSON string literals can be read back *)








(** ** Reading back what was written *)

Section RoundTrip.
Context {W : Type} `{SandboxFiles W}.
Variable sandboxId : string.

Local Open Scope run_scope.

Lemma write_each_reads (l : loc) (file : list FileItem) (m m' : Mem W) :
  write_each l file m = (Returns (), m') →
  ∀ p c,
    (last_write p file = Some c ∨
     (last_write p file = None ∧ reads_as (world m) p c)) →
    reads_as (world m') p c.
Proof.
  revert m. induction file as [|item file IH]; intros m.
  - intros [= <-] p c [?|[_ ?]]; done.
  - simpl. unfold bind at 1.
    destruct (call (files_write (path item) (content item)) m)
      as [[[]|e] m1] eqn:Hw; [|done].
    apply call_result in Hw as [Hw _].
    unfold bind at 1. rewrite object_set_run.
    intros Hrest p c Hp. eapply IH; [done|].
    destruct (last_write p file) as [c'|] eqn:Hl.
    + left. destruct Hp as [Hp|[Hp _]]; congruence.
    + right. split; [done|]. simpl.
      destruct (decide (path item = p)) as [<-|Hne].
      * destruct Hp as [[= <-]|[? _]]; [|done].
        by eapply read_after_write.
      * destruct Hp as [?|[_ Hp]]; [done|].
        by eapply read_after_other_write.
Qed.



End RoundTrip.

(** ** The steps of the run *)

Section RunSteps.
Context {W : Type} `{Environment W}.

Local Open Scope run_scope.

Lemma bind_cases {A B} (c : M W A) (k : A → M W B) (m : Mem W) r m' :
  bind c k m = (r, m') →
  (∃ e, r = Throws e ∧ c m = (Throws e, m')) ∨
  (∃ a m1, c m = (Returns a, m1) ∧ k a m1 = (r, m')).
Proof.
  unfold bind. destruct (c m) as [[a|e] m1].
  - intros Hk. right. by exists a, m1.
  - intros [= <- <-]. left. by exists e.
Qed.

Lemma call_state_kept {A} (op : W → outcome A * W) :
  respects state_kept (call op).
Proof.
  intros m r m' Hc.
  by apply call_same_process in Hc as (? & ? & ? & ? & _).
Qed.

Lemma create_message_state_kept (d : MessageData) :
  respects state_kept (create_message d).
Proof.
  intros m r m'. unfold create_message. intros Hc.
  apply bind_cases in Hc as [(e & -> & Hc)|(a & m1 & Hc & Hrest)];
    apply call_state_kept in Hc; [done|].
  by injection Hrest as <- <-.
Qed.

Lemma save_result_state_kept (event : Event) (is_error : bool) (url : string)
    (titleOut respOut : list Message) :
  respects state_kept (save_result event is_error url titleOut respOut).
Proof.
  unfold save_result. destruct is_error; [apply create_message_state_kept|].
  apply respects_bind; [apply _ | apply respects_lift; apply _ | intros].
  apply respects_bind; [apply _ | apply respects_lift; apply _ | intros].
  apply respects_bind; [apply _ | apply respects_get; apply _ | intros].
  apply create_message_state_kept.
Qed.

(** The four steps of the run driver call collaborators and return strings,
    messages or nothing: each is its unit of work. *)
Lemma codeAgentFunction_steps (event : Event) (m : Mem W) :
  codeAgentFunction event m
  = (sandboxId <-
       (sandboxId <- call (Sandbox_create "lovable-test") ;;
        call (Sandbox_setTimeout (60000 * 10 * 1)) ;;
        ret sandboxId) ;;
     previousMessages <-
       (found <- call (message_findMany (event_projectId event)) ;;
        ret (rev (map format_message found))) ;;
     createState previousMessages ;;
     network_run sandboxId (Some ()) maxIter (event_value event) ;;
     result <- get ;;
     fragmentTitleOutput <-
       call (generator_run fragmentTitleGenerator (summary (data result))) ;;
     responseOutput <-
       call (generator_run responseGenerator (summary (data result))) ;;
     let is_error := isError result in
     sandboxUrl <-
       (call (getSandbox sandboxId) ;;
        host <- call (getHost 3000) ;;
        ret ("http://" +:+ host)) ;;
     save_result event is_error sandboxUrl fragmentTitleOutput responseOutput ;;
     m <- get ;;
     ret {| out_url := sandboxUrl;
            out_title := "Fragment";
            out_files := state_files m;
            out_summary := summary (data m) |}) m.
Proof.
  unfold codeAgentFunction. revert m.
  intros m. etrans.
  { apply bind_ext_l, step_run_idle.
    apply respects_bind; [apply _ | apply call_state_kept | intros].
    apply respects_bind; [apply _ | apply call_state_kept | intros].
    apply respects_ret; apply _. }
  revert m. apply bind_ext_r. intros sandboxId m. etrans.
  { apply bind_ext_l, step_run_idle.
    apply respects_bind; [apply _ | apply call_state_kept | intros].
    apply respects_ret; apply _. }
  revert m. apply bind_ext_r. intros previousMessages.
  apply bind_ext_r. intros _. apply bind_ext_r. intros _.
  apply bind_ext_r. intros result. apply bind_ext_r. intros titleOut.
  apply bind_ext_r. intros respOut m. etrans.
  { apply bind_ext_l, step_run_idle.
    apply respects_bind; [apply _ | apply call_state_kept | intros].
    apply respects_bind; [apply _ | apply call_state_kept | intros].
    apply respects_ret; apply _. }
  revert m. apply bind_ext_r. intros url.
  apply bind_ext_l, step_run_idle, save_result_state_kept.
Qed.

End RunSteps.

(** ** The run driver *)

Section RunFacts.
Context {W : Type} `{Environment W}.

Local Open Scope run_scope.

Lemma bind_returns {A B} (c : M W A) (k : A → M W B) (m : Mem W) b m' :
  bind c k m = (Returns b, m') →
  ∃ a m1, c m = (Returns a, m1) ∧ k a m1 = (Returns b, m').
Proof.
  unfold bind. destruct (c m) as [[a|e] m1]; [|done]. by exists a, m1.
Qed.

Lemma isError_false_iff (m : Mem W) :
  isError m = false ↔ summary_of m ≠ "" ∧ state_files m ≠ ∅.
Proof.
  unfold isError, summary_of.
  rewrite orb_false_iff, negb_false_iff, truthy_true_iff, Nat.eqb_neq.
  by rewrite map_size_non_empty_iff.
Qed.

Lemma isError_true_iff (m : Mem W) :
  isError m = true ↔ summary_of m = "" ∨ state_files m = ∅.
Proof.
  unfold isError, summary_of.
  rewrite orb_true_iff, negb_true_iff, truthy_false_iff, Nat.eqb_eq.
  by rewrite map_size_empty_iff.
Qed.

Lemma createState_run (previousMessages : list Message) (m : Mem W) :
  ∃ m', createState previousMessages m = (Returns (), m') ∧
        summary_of m' = "" ∧ state_files m' = ∅ ∧
        persisted m' = persisted m ∧ world m' = world m ∧
        results m' = [] ∧ messages m' = previousMessages.
Proof.
  eexists. split; [reflexivity|]. unfold state_files. simpl.
  by rewrite object_at_insert, decide_True.
Qed.

Lemma create_message_returns (d : MessageData) (m m' : Mem W) :
  create_message d m = (Returns (), m') →
  objects m' = objects m ∧ data m' = data m ∧
  persisted m' = (persisted m ++ [d])%list.
Proof.
  unfold create_message. intros (? & m1 & Hc & Hrest)%bind_returns.
  apply call_result in Hc as (_ & Ho & Hd & _ & _ & Hp).
  injection Hrest as <-. simpl. by rewrite Hp.
Qed.

Lemma save_result_returns (event : Event) (is_error : bool) (url : string)
    (titleOut respOut : list Message) (m m' : Mem W) :
  save_result event is_error url titleOut respOut m = (Returns (), m') →
  objects m' = objects m ∧ data m' = data m ∧
  ∃ record,
    persisted m' = (persisted m ++ [record])%list ∧
    if is_error then record = error_record event
    else ∃ response title,
        generateResponse respOut = Returns response ∧
        generateFragmentTitle titleOut = Returns title ∧
        record =
          {| msg_projectId := event_projectId event;
             msg_content := response;
             msg_role := ASSISTANT;
             msg_type := RESULT;
             msg_fragment :=
               Some {| fragment_sandboxUrl := url;
                       fragment_title := title;
                       fragment_files := state_files m |} |}.
Proof.
  unfold save_result. destruct is_error.
  - intros (Ho & Hd & Hp)%create_message_returns.
    repeat split; try done. by eexists.
  - intros (response & m1 & Hr & Hrest)%bind_returns.
    apply bind_returns in Hrest as (title & m2 & Ht & Hrest).
    apply bind_returns in Hrest as (m3 & m4 & Hg & Hrest).
    unfold lift in Hr, Ht. injection Hr as Hr <-. injection Ht as Ht <-.
    injection Hg as <- <-.
    apply create_message_returns in Hrest as (Ho & Hd & Hp).
    repeat split; try done. eexists. split; [done|]. by eexists _, _.
Qed.

(** The loop leaves the records alone, and is left in DONE with at most
    [cap] turns counted. *)
Lemma network_run_returns (sandboxId : string) (step : option ()) (cap : nat)
    (input : string) (m : Mem W) c m' :
  1 ≤ cap →
  network_run sandboxId step cap input m = (Returns c, m') →
  rtc (step_rel sandboxId step cap input) (start m) (c, m') ∧
  at_phase c = DONE ∧ counted cap m (c, m') ∧ loop_frame m m'.
Proof.
  intros Hcap Hrun. unfold network_run in Hrun.
  pose proof (iterate_steps _ _ _ _ _ _ _ _ _ Hrun) as Hsteps.
  split; [done|]. split.
  - eapply iterate_done; [|done]. unfold steps_left. simpl. lia.
  - split.
    + eapply steps_counted; [done|]. by apply start_counted.
    + by apply steps_loop_frame in Hsteps.
Qed.

(** A run that returns, stage by stage. *)
Lemma codeAgentFunction_returns (event : Event) (m0 : Mem W) out m' :
  codeAgentFunction event m0 = (Returns out, m') →
  ∃ (sandboxId : string) (ms ml : Mem W) (c : Loop)
    (titleOut respOut : list Message) (url : string) (record : MessageData),
    summary_of ms = "" ∧ state_files ms = ∅ ∧ results ms = [] ∧
    network_run sandboxId (Some ()) maxIter (event_value event) ms
      = (Returns c, ml) ∧
    (∃ w w', generator_run fragmentTitleGenerator (summary_of ml) w
             = (Returns titleOut, w')) ∧
    out = {| out_url := url; out_title := "Fragment";
             out_files := state_files ml; out_summary := summary_of ml |} ∧
    persisted m' = (persisted m0 ++ [record])%list ∧
    if isError ml then record = error_record event
    else ∃ response title,
        generateResponse respOut = Returns response ∧
        generateFragmentTitle titleOut = Returns title ∧
        record =
          {| msg_projectId := event_projectId event;
             msg_content := response;
             msg_role := ASSISTANT;
             msg_type := RESULT;
             msg_fragment :=
               Some {| fragment_sandboxUrl := url;
                       fragment_title := title;
                       fragment_files := state_files ml |} |}.
Proof.
  rewrite codeAgentFunction_steps.
  intros (sandboxId & m1 & Hsb & Hrun)%bind_returns.
  assert (same_process m0 m1) as (_ & _ & _ & _ & Hp1).
  { revert Hsb. apply respects_bind; [apply _ | apply call_same_process |].
    intros id. apply respects_bind; [apply _ | apply call_same_process |].
    intros _. apply respects_ret; apply _. }
  apply bind_returns in Hrun as (previousMessages & m2 & Hprev & Hrun).
  assert (same_process m1 m2) as (_ & _ & _ & _ & Hp2).
  { revert Hprev. apply respects_bind; [apply _ | apply call_same_process |].
    intros found. apply respects_ret; apply _. }
  apply bind_returns in Hrun as ([] & ms & Hcs & Hrun).
  destruct (createState_run previousMessages m2)
    as (ms' & Hcs' & Hsum & Hfiles & Hp3 & _ & Hres & _).
  rewrite Hcs in Hcs'. injection Hcs' as <-.
  apply bind_returns in Hrun as (c & ml & Hnet & Hrun).
  destruct (network_run_returns sandboxId (Some ()) maxIter (event_value event)
              ms c ml ltac:(unfold maxIter; lia) Hnet)
    as (_ & _ & _ & (_ & Hp4 & _ & _)).
  apply bind_returns in Hrun as (result & m3 & Hget & Hrun).
  injection Hget as <- <-.
  apply bind_returns in Hrun as (titleOut & m4 & Ht & Hrun).
  apply call_result in Ht as (Ht & Ho4 & Hd4 & _ & _ & Hp5).
  apply bind_returns in Hrun as (respOut & m5 & Hr & Hrun).
  apply call_result in Hr as (Hr & Ho5 & Hd5 & _ & _ & Hp6).
  apply bind_returns in Hrun as (url & m6 & Hu & Hrun).
  assert (same_process m5 m6) as (Ho6 & Hd6 & _ & _ & Hp7).
  { revert Hu. apply respects_bind; [apply _ | apply call_same_process |].
    intros _. apply respects_bind; [apply _ | apply call_same_process |].
    intros host. apply respects_ret; apply _. }
  apply bind_returns in Hrun as ([] & m7 & Hsave & Hrun).
  apply save_result_returns in Hsave as (Ho7 & Hd7 & record & Hp8 & Hrec).
  apply bind_returns in Hrun as (mf & m8 & Hget & Hrun).
  injection Hget as <- <-. injection Hrun as <- <-.
  assert (state_files m6 = state_files ml) as Hf6
    by (unfold state_files; congruence).
  assert (state_files m7 = state_files ml) as Hf7
    by (unfold state_files; congruence).
  assert (summary_of m7 = summary_of ml) as Hs7
    by (unfold summary_of; congruence).
  exists sandboxId, ms, ml, c, titleOut, respOut, url, record.
  repeat split; try done.
  - by eexists _, _.
  - unfold summary_of in *. by rewrite Hf7, Hs7.
  - rewrite Hp8. congruence.
  - destruct (isError ml); [done|]. by rewrite Hf6 in Hrec.
Qed.

End RunFacts.

(** ** The executable environment keeps the filesystem contract *)

#[global] Instance sim_sandbox_files : SandboxFiles Sim.World.
Proof.
  split.
  - intros p c w w' Hw r w'' Hr. simpl in *. unfold Sim.write, Sim.read in *.
    destruct (Sim.ttl w) as [|n]; [done|].
    destruct (truthy p); [|done]. injection Hw as <-. simpl in Hr.
    destruct n; [done|]. rewrite lookup_insert_eq in Hr. by injection Hr as <- _.
  - intros p c q d w w' Hne Hp Hw r w'' Hr. simpl in *.
    unfold reads_as in Hp. simpl in Hp. unfold Sim.write, Sim.read in *.
    destruct (Sim.ttl w) as [|n]; [done|].
    destruct (truthy q); [|done]. injection Hw as <-. simpl in Hr.
    destruct n; [done|]. rewrite lookup_insert_ne in Hr by done.
    destruct (Sim.fs w !! p) as [x|] eqn:Hx; [|done]. injection Hr as <- _.
    by eapply Hp.
  - intros id p c w r w' Hp Hc. simpl in *. unfold Sim.connect in Hc.
    by destruct (Sim.ttl w); injection Hc as <- <-.
Qed.

Section MergeFacts.
Context {W : Type} `{Environment W}.

Local Open Scope run_scope.

Lemma same_process_state_files (m m' : Mem W) :
  same_process m m' → state_files m' = state_files m.
Proof. intros (Ho & Hd & _). unfold state_files. by rewrite Ho, Hd. Qed.

(** What an invocation leaves in the mapping of the state is the merge of
    the entries it commits. *)
Lemma invoke_state_files (sandboxId : string) (step : option ())
    (t : ToolCall) (m : Mem W) :
  state_files (invoke sandboxId step t m).2
  = merge_files (state_files m) (committed_by sandboxId step t m).
Proof.
  destruct t as [command|file|paths].
  - assert (committed_by sandboxId step (terminal command) m = []) as ->
      by by destruct step.
    simpl. apply same_process_state_files.
    destruct (terminal_handler sandboxId step command m) as [r m'] eqn:Hrun.
    by apply terminal_handler_same_process in Hrun.
  - destruct step as [[]|]; [|done]. simpl.
    destruct (createOrUpdateFiles_handler_run sandboxId file m)
      as (v & m1 & Hstep & Hv).
    rewrite Hstep. simpl. destruct v as [l|s].
    + rewrite Hv. apply committed_memory_files.
    + destruct Hv as [-> _]. done.
  - assert (committed_by sandboxId step (readFiles paths) m = []) as ->
      by by destruct step.
    simpl. apply same_process_state_files.
    destruct (readFiles_handler sandboxId step paths m) as [r m'] eqn:Hrun.
    by apply readFiles_handler_same_process in Hrun.
Qed.

Lemma invoke_all_cons (sandboxId : string) (step : option ()) (t : ToolCall)
    (ts : list ToolCall) (m : Mem W) :
  (invoke_all sandboxId step (t :: ts) m).2
  = (invoke_all sandboxId step ts (invoke sandboxId step t m).2).2.
Proof.
  simpl. unfold bind.
  destruct (invoke_total sandboxId step t m) as (r & m1 & Hr). rewrite Hr.
  cbn [snd].
  destruct (invoke_all_total sandboxId step ts m1) as (rs & m2 & Hrs).
  by rewrite Hrs.
Qed.

Lemma invoke_all_state_files (sandboxId : string) (step : option ())
    (ts : list ToolCall) (m : Mem W) :
  state_files (invoke_all sandboxId step ts m).2
  = merge_files (state_files m) (committed sandboxId step ts m).
Proof.
  revert m. induction ts as [|t ts IH]; intros m; [done|].
  rewrite invoke_all_cons, IH, invoke_state_files. simpl.
  by rewrite merge_files_app.
Qed.

(** A sequence of invocations that all succeed commits all their entries. *)
Lemma committed_writes_succeed (sandboxId : string)
    (calls : list (list FileItem)) (m : Mem W) :
  writes_succeed sandboxId calls m →
  committed sandboxId (Some ()) (createOrUpdateFiles <$> calls) m
  = List.concat calls.
Proof.
  revert m. induction calls as [|file calls IH]; intros m; [done|].
  intros [(l & m1 & Hstep) Hrest]. rewrite fmap_cons. simpl.
  rewrite Hstep. simpl. f_equal. by apply IH.
Qed.

Lemma invoke_writes_merge (sandboxId : string) (calls : list (list FileItem))
    (m : Mem W) :
  writes_succeed sandboxId calls m →
  state_files (invoke_all sandboxId (Some ()) (createOrUpdateFiles <$> calls) m).2
  = merge_files (state_files m) (List.concat calls).
Proof.
  intros Hok. by rewrite invoke_all_state_files, committed_writes_succeed.
Qed.

(** The entries an invocation commits are entries of that invocation. *)
Lemma committed_elem (sandboxId : string) (step : option ())
    (ts : list ToolCall) (m : Mem W) (item : FileItem) :
  item ∈ committed sandboxId step ts m →
  ∃ file, createOrUpdateFiles file ∈ ts ∧ item ∈ file.
Proof.
  revert m. induction ts as [|t ts IH]; intros m; simpl.
  - by intros ?%elem_of_nil.
  - intros [Hin|Hin]%elem_of_app.
    + unfold committed_by in Hin. destruct step; [|by apply elem_of_nil in Hin].
      destruct t as [|file|]; try by apply elem_of_nil in Hin.
      destruct (createOrUpdateFiles_step sandboxId file m).1 as [[]|];
        try by apply elem_of_nil in Hin.
      exists file. split; [by left|done].
    + destruct (IH _ Hin) as (file & ? & ?). exists file. split; [by right|done].
Qed.

Section Along.
Variables (sandboxId : string) (step : option ()) (cap : nat) (input : string).

(** A transition merges into the mapping the entries its turn commits. *)
Lemma step_writes (x y : Loop * Mem W) :
  step_rel sandboxId step cap input x y →
  state_files y.2
  = merge_files (state_files x.2) (turn_writes sandboxId step input x).
Proof.
  destruct x as [c m], y as [c' m']. intros Hstep.
  pose proof (step_rel_cases _ _ _ _ _ _ Hstep) as Hs.
  unfold turn_writes, step_rel in *. simpl in *. destruct (at_phase c) eqn:Hc.
  - by destruct Hs as (-> & _).
  - apply transition_executing_returns in Hstep as (out & w & Hi & ->); [|done].
    rewrite Hi. by rewrite invoke_all_state_files.
  - destruct Hs as (-> & _).
    destruct (detected_frame result m) as (Ho & Hfi & _).
    unfold state_files. simpl. by rewrite Ho, Hfi.
  - by injection Hs as -> ->.
Qed.

Lemma writes_along_merge (x y : Loop * Mem W) (es : list FileItem) :
  writes_along sandboxId step cap input x es y →
  state_files y.2 = merge_files (state_files x.2) es.
Proof.
  induction 1 as [x|x y z es Hxy Hyz IH]; [done|].
  by rewrite IH, (step_writes _ _ Hxy), merge_files_app.
Qed.

Lemma steps_writes_along (x y : Loop * Mem W) :
  rtc (step_rel sandboxId step cap input) x y →
  ∃ es, writes_along sandboxId step cap input x es y.
Proof.
  induction 1 as [x|x y z Hxy Hyz [es IH]].
  - exists []. constructor.
  - eexists. by econstructor.
Qed.

End Along.

End MergeFacts.

(** * The properties of the design document *)

Section Claims.
Context {W : Type} `{Environment W}.

Local Open Scope run_scope.

(** C5. When the turn has a final assistant text: if the text contains the
    sentinel [<task_summary>], the completion detector writes the whole text,
    markup included, into the summary of the state and changes nothing else;
    if it does not, the detector changes nothing. *)
Theorem completion_detector_on_text (result : AgentResult) (t : string)
    (m : Mem W) :
  lastAssistantTextMessageContent result = Some t →
  ((∃ pre post, t = pre +:+ "<task_summary>" +:+ post) →
   onResponse result true m = (Returns result, with_summary m t)) ∧
  ((¬ ∃ pre post, t = pre +:+ "<task_summary>" +:+ post) →
   onResponse result true m = (Returns result, m)).
Proof.
  intros Ht. rewrite onResponse_run. unfold detected. rewrite Ht.
  split; intros Hs.
  - apply (includes_true_iff t sentinel) in Hs.
    by rewrite Hs, (includes_sentinel_truthy t Hs).
  - destruct (includes t sentinel) eqn:Hi.
    + by apply (includes_true_iff t sentinel) in Hi.
    + by rewrite andb_false_r.
Qed.

(** C8. When the turn has no final assistant text, the completion detector
    returns normally and changes nothing, so the router decides after that
    turn exactly as it would have decided before it: no summary was
    signalled. *)
Theorem completion_detector_without_text (result : AgentResult) (m : Mem W) :
  lastAssistantTextMessageContent result = None →
  (∀ network, onResponse result network m = (Returns result, m)) ∧
  (∀ network, router (onResponse result network m).2 = router m).
Proof.
  intros Hnone.
  assert (∀ network, onResponse result network m = (Returns result, m)) as Hsame.
  { intros network. rewrite onResponse_run. unfold detected. rewrite Hnone.
    by destruct network. }
  split; [done|]. intros network. by rewrite Hsame.
Qed.

(** C7. The [terminal] tool never throws. When the command succeeds it
    returns the standard output of the command's result. When connecting to
    the sandbox or running the command fails with [e], it returns the single
    string [Command failed: e stdout: OUT\nstderr: ERR], where OUT and ERR are
    what the two stream callbacks had received when the failure occurred. *)
Theorem terminal_result (sandboxId command : string) (m : Mem W) :
  (∀ w1 run w2 result,
     getSandbox sandboxId (world m) = (Returns (), w1) →
     commands_run command w1 = (run, w2) →
     ended run = Returns result →
     terminal_handler sandboxId (Some ()) command m
     = (Returns (Some (stdout result)), with_world m w2)) ∧
  (∀ w1 run w2 e,
     getSandbox sandboxId (world m) = (Returns (), w1) →
     commands_run command w1 = (run, w2) →
     ended run = Throws e →
     terminal_handler sandboxId (Some ()) command m
     = (Returns (Some ("Command failed: " +:+ e +:+ " stdout: "
                         +:+ stdout_chunks (emitted run) +:+ newline
                         +:+ "stderr: " +:+ stderr_chunks (emitted run))),
        with_world m w2)) ∧
  (∀ e w1,
     getSandbox sandboxId (world m) = (Throws e, w1) →
     terminal_handler sandboxId (Some ()) command m
     = (Returns (Some ("Command failed: " +:+ e +:+ " stdout: " +:+ newline
                         +:+ "stderr: ")),
        with_world m w1)) ∧
  (∃ s m', terminal_handler sandboxId (Some ()) command m
           = (Returns (Some s), m')).
Proof.
  rewrite terminal_handler_unfold. unfold bind.
  rewrite terminal_step_run. repeat split.
  - intros w1 run w2 result -> -> ->. done.
  - intros w1 run w2 e -> -> ->. done.
  - intros e w1 ->. done.
  - destruct (getSandbox sandboxId (world m)) as [[[]|e] w1].
    + destruct (commands_run command w1) as [run w2]. by eexists _, _.
    + by eexists _, _.
Qed.

(** C6, amended. For every path other than [__proto__], the files mapping
    of the state after the tool invocations of a turn, whatever tools they
    are, is the last-write-wins merge of the entries of the
    [createOrUpdateFiles] invocations that succeeded, in order: the path
    holds the content of its last such entry, and what it held before when
    it has none. Invocations that all succeed commit all their entries. The
    same holds along every path of the network's state machine, with the
    entries committed turn after turn, and every run of the network is such a
    path; the mapping a run of the function returns is that merge from the
    empty mapping. Whatever the tools do and however they end, in a turn and
    along a run, the domain of the mapping never shrinks. *)
Theorem files_last_write_wins (sandboxId : string) :
  (∀ step ts (m : Mem W) p,
     p ≠ "__proto__" →
     state_files (invoke_all sandboxId step ts m).2 !! p
     = match last_write p (committed sandboxId step ts m) with
       | Some c => Some c
       | None => state_files m !! p
       end) ∧
  (∀ calls (m : Mem W),
     writes_succeed sandboxId calls m →
     committed sandboxId (Some ()) (createOrUpdateFiles <$> calls) m
     = List.concat calls) ∧
  (∀ step cap input (m0 : Mem W) c m',
     network_run sandboxId step cap input m0 = (Returns c, m') →
     ∃ es, writes_along sandboxId step cap input (start m0) es (c, m')) ∧
  (∀ step cap input (x y : Loop * Mem W) es p,
     writes_along sandboxId step cap input x es y →
     p ≠ "__proto__" →
     state_files y.2 !! p
     = match last_write p es with
       | Some c => Some c
       | None => state_files x.2 !! p
       end) ∧
  (∀ event (m0 : Mem W) out m',
     codeAgentFunction event m0 = (Returns out, m') →
     ∃ id ms c ml es,
       state_files ms = ∅ ∧
       writes_along id (Some ()) maxIter (event_value event) (start ms) es
         (c, ml) ∧
       ∀ p, p ≠ "__proto__" → out_files out !! p = last_write p es) ∧
  (∀ step ts (m : Mem W),
     dom (state_files m)
     ⊆ dom (state_files (invoke_all sandboxId step ts m).2)) ∧
  (∀ step cap input (x y : Loop * Mem W),
     rtc (step_rel sandboxId step cap input) x y →
     dom (state_files x.2) ⊆ dom (state_files y.2)).
Proof.
  split; [|split; [|split; [|split; [|split; [|split]]]]].
  - intros step ts m p Hp.
    by rewrite invoke_all_state_files, merge_files_lookup_ne.
  - apply committed_writes_succeed.
  - intros step cap input m0 c m' Hrun.
    by eapply steps_writes_along, iterate_steps.
  - intros step cap input x y es p Hpath Hp.
    by rewrite (writes_along_merge _ _ _ _ _ _ _ Hpath), merge_files_lookup_ne.
  - intros event m0 out m' Hrun.
    apply codeAgentFunction_returns in Hrun
      as (id & ms & ml & c & titleOut & respOut & url & record
          & _ & Hempty & _ & Hnet & _ & -> & _).
    apply iterate_steps, steps_writes_along in Hnet as [es Hpath].
    exists id, ms, c, ml, es. split; [done|]. split; [done|].
    intros p Hp. simpl.
    pose proof (writes_along_merge _ _ _ _ _ _ _ Hpath) as Hmerge.
    simpl in Hmerge. rewrite Hmerge, merge_files_lookup_ne by done.
    rewrite Hempty, lookup_empty. by destruct (last_write p es).
  - intros step ts m. rewrite invoke_all_state_files. apply merge_files_dom.
  - intros step cap input x y Hsteps.
    by apply steps_loop_frame in Hsteps as (_ & _ & _ & Hdom).
Qed.

(** C2. The summary of a run starts empty, a transition changes it only in
    the completion check, where the detector sets it to the non-empty final
    text of the turn, and along every path of the network's state machine a
    summary that is non-empty is never changed again: the configuration is
    then between turns or done, and the router selects no agent. Every run of
    the network is such a path. *)
Theorem summary_set_at_most_once (sandboxId : string) (step : option ())
    (cap : nat) (input : string) (m0 : Mem W) :
  (∀ previousMessages (m : Mem W),
     summary_of (createState previousMessages m).2 = "") ∧
  (∀ c m', network_run sandboxId step cap input m0 = (Returns c, m') →
           rtc (step_rel sandboxId step cap input) (start m0) (c, m')) ∧
  (∀ x y, step_rel sandboxId step cap input x y →
          summary_of y.2 ≠ summary_of x.2 →
          ∃ result, at_phase x.1 = COMPLETION_CHECK result ∧
                    lastAssistantTextMessageContent result
                    = Some (summary_of y.2) ∧
                    summary_of y.2 ≠ "") ∧
  (∀ x y, rtc (step_rel sandboxId step cap input) (start m0) x →
          rtc (step_rel sandboxId step cap input) x y →
          summary_of x.2 ≠ "" →
          summary_of y.2 = summary_of x.2 ∧
          (at_phase x.1 = TURN_PENDING ∨ at_phase x.1 = DONE) ∧
          router x.2 = (Returns None, x.2)).
Proof.
  split; [|split; [|split]].
  - intros previousMessages m.
    destruct (createState_run previousMessages m) as (m1 & Hcs & Hsum & _).
    by rewrite Hcs.
  - intros c m' Hrun. by eapply iterate_steps.
  - intros x y Hstep Hne.
    destruct (step_summary_change _ _ _ _ x y Hstep Hne) as (result & ? & ? & Hi).
    exists result. repeat split; try done.
    by apply truthy_true_iff, includes_sentinel_truthy.
  - intros x y Hx Hy Hne.
    destruct (steps_settled _ _ _ _ _ _ Hx (start_settled m0)) as [Hsx _].
    destruct (steps_settled _ _ _ _ _ _ Hy Hsx) as [_ Hsum].
    repeat split; [by apply Hsum | by apply Hsx |].
    rewrite router_run. apply truthy_true_iff in Hne. by rewrite Hne.
Qed.

(** C4. A run of the network with the cap of 15 ends in DONE after at most 15
    turns, one result appended per turn, and it throws only if an inference
    does. If the summary is empty at the end, as it is when the agent never
    produces the sentinel, the run has made exactly 15 turns; it has returned
    normally, and the empty summary is what makes the outcome a failure. *)
Theorem loop_stops_at_cap (sandboxId : string) (step : option ())
    (input : string) (m0 : Mem W) :
  (∀ c m', network_run sandboxId step maxIter input m0 = (Returns c, m') →
     at_phase c = DONE ∧ counter c ≤ 15 ∧
     List.length (results m') = List.length (results m0) + counter c ∧
     (summary_of m' = "" → counter c = 15 ∧ isError m' = true)) ∧
  ((∀ history done w, ∃ out w',
       codeAgent_infer history done input w = (Returns out, w')) →
   ∃ c m', network_run sandboxId step maxIter input m0 = (Returns c, m')).
Proof.
  split.
  - intros c m' Hrun.
    destruct (network_run_returns sandboxId step maxIter input m0 c m'
                ltac:(unfold maxIter; lia) Hrun)
      as (_ & Hdone & (Hle & _ & Hcap & Hlen) & _).
    simpl in *. repeat split; try done.
    + by apply Hle.
    + by destruct (Hcap Hdone).
    + apply isError_true_iff. by left.
  - intros Hinfer. by apply iterate_total.
Qed.

(** C3. The outcome of a run is a success exactly when, at the exit of the
    loop, the summary is non-empty and the files mapping is non-empty. A run
    that returns has persisted one record. On success it is a RESULT record
    of role ASSISTANT with a fragment holding the files. On failure it is the
    record of role ASSISTANT and type ERROR whose content is the fixed text
    [Something went wrong. Please try again.], with no fragment: neither the
    summary nor the files of the run are in it. *)
Theorem run_outcome_and_record (event : Event) (m0 : Mem W) (out : Output)
    (m' : Mem W) :
  codeAgentFunction event m0 = (Returns out, m') →
  (∀ m : Mem W, isError m = false ↔ summary_of m ≠ "" ∧ state_files m ≠ ∅) ∧
  ∃ record,
    persisted m' = (persisted m0 ++ [record])%list ∧
    (out_summary out ≠ "" ∧ out_files out ≠ ∅ →
     msg_role record = ASSISTANT ∧ msg_type record = RESULT ∧
     ∃ f, msg_fragment record = Some f ∧ fragment_files f = out_files out) ∧
    (out_summary out = "" ∨ out_files out = ∅ →
     record =
       {| msg_projectId := event_projectId event;
          msg_content := "Something went wrong. Please try again.";
          msg_role := ASSISTANT;
          msg_type := ERROR;
          msg_fragment := None |}).
Proof.
  intros Hrun. split; [apply isError_false_iff|].
  apply codeAgentFunction_returns in Hrun
    as (sandboxId & ms & ml & c & titleOut & respOut & url & record
        & _ & _ & _ & _ & _ & -> & Hp & Hrec).
  exists record. split; [done|]. simpl. split.
  - intros Hok%isError_false_iff. rewrite Hok in Hrec.
    destruct Hrec as (response & title & _ & _ & ->). simpl.
    repeat split; try done. by eexists.
  - intros Hfail%isError_true_iff. by rewrite Hfail in Hrec.
Qed.

(** C10. A run that returns hands its caller the title [Fragment], whatever
    the title generator produced; the generated title appears only in the
    fragment of the record persisted on success. *)
Theorem returned_title_is_fragment (event : Event) (m0 : Mem W) (out : Output)
    (m' : Mem W) :
  codeAgentFunction event m0 = (Returns out, m') →
  out_title out = "Fragment" ∧
  ∃ record titleOut,
    persisted m' = (persisted m0 ++ [record])%list ∧
    (∃ w w', generator_run fragmentTitleGenerator (out_summary out) w
             = (Returns titleOut, w')) ∧
    ∀ f, msg_fragment record = Some f →
         msg_type record = RESULT ∧
         generateFragmentTitle titleOut = Returns (fragment_title f).
Proof.
  intros Hrun.
  apply codeAgentFunction_returns in Hrun
    as (sandboxId & ms & ml & c & titleOut & respOut & url & record
        & _ & _ & _ & _ & Hgen & -> & Hp & Hrec).
  split; [done|]. exists record, titleOut. repeat split; try done.
  - destruct (isError ml); [by subst|].
    by destruct Hrec as (response & title & _ & _ & ->).
  - destruct (isError ml); [by subst|].
    destruct Hrec as (response & title & _ & Ht & ->).
    simpl in *. by simplify_eq.
Qed.

End Claims.


(** C1. The merge of a [createOrUpdateFiles] invocation into the files
    mapping of the state is meant to be all or nothing: every entry of an
    invocation that succeeds is in the mapping. The code misses one case: the
    dictionary is a plain object, and an entry whose path is [__proto__] is
    assigned through the accessor of the prototype, which adds nothing. For
    an invocation that writes [a.txt] and then [__proto__], the sandbox
    accepts both writes, the step hands back the mapping, the handler commits
    it, and the mapping of the state holds [a.txt] alone: not every entry of
    the invocation, and not what it was before. *)
Theorem createOrUpdateFiles_misses_proto_entry :
  let m := Sim.fresh_state Sim.silent in
  let m' := (createOrUpdateFiles_handler "sbx-1" (Some ()) sim_proto_call m).2 in
  state_files m = ∅ ∧
  (∃ l, (createOrUpdateFiles_step "sbx-1" sim_proto_call m).1
        = Returns (VObject l)) ∧
  Sim.fs (world m') !! "a.txt" = Some "x" ∧
  Sim.fs (world m') !! "__proto__" = Some "y" ∧
  state_files m' !! "a.txt" = Some "x" ∧
  state_files m' !! "__proto__" = None ∧
  state_files m' ≠ state_files m.
Proof.
  cbv zeta. split; [vm_compute; reflexivity|].
  split; [eexists; vm_compute; reflexivity|].
  do 4 (split; [vm_compute; reflexivity|]).
  intros Heq. apply (f_equal (.!! "a.txt")) in Heq. vm_compute in Heq.
  discriminate.
Qed.

(** C6 as stated, for every sequence of invocations, fails when the sandbox
    rejects a write: the entry whose write was rejected is in the merge of
    all entries and not in the mapping of the state, and neither is the entry
    written before it in the same invocation. *)
Lemma files_merge_misses_rejected_write :
  let m := Sim.fresh_state Sim.silent in
  let calls := [Sim.failing_call] in
  let m' := (invoke_all "sbx-1" (Some ()) (createOrUpdateFiles <$> calls) m).2 in
  last_write "" (List.concat calls) = Some "y" ∧
  last_write "a.txt" (List.concat calls) = Some "x" ∧
  state_files m' !! "" = None ∧
  state_files m' !! "a.txt" = None ∧
  state_files m' ≠ merge_files (state_files m) (List.concat calls).
Proof.
  cbv zeta. split; [reflexivity|]. split; [reflexivity|].
  split; [vm_compute; reflexivity|]. split; [vm_compute; reflexivity|].
  intros Heq. apply (f_equal (.!! "")) in Heq. vm_compute in Heq.
  discriminate.
Qed.

(** ** The properties at work in the executable environment *)

Lemma sim_infer_total (input : string) :
  ∀ history done (w : Sim.World), ∃ out w',
    codeAgent_infer history done input w = (Returns out, w').
Proof.
  intros history done w. simpl. unfold Sim.infer.
  destruct (Sim.script w); by eexists _, _.
Qed.

Lemma completion_detector_on_text_witness :
  let result := {| output := [Sim.says Sim.announcement]; toolCalls := [] |} in
  lastAssistantTextMessageContent result = Some Sim.announcement ∧
  onResponse result true (Sim.fresh_state Sim.silent)
  = (Returns result,
     with_summary (Sim.fresh_state Sim.silent) Sim.announcement).
Proof.
  simpl. split; [reflexivity|].
  apply (@completion_detector_on_text Sim.World Sim.environment
           {| output := [Sim.says Sim.announcement]; toolCalls := [] |}
           Sim.announcement (Sim.fresh_state Sim.silent) ltac:(reflexivity)).
  by exists "", "Built a todo app</task_summary>".
Defined.

Lemma completion_detector_without_text_witness :
  let result :=
    {| output := [ToolCallMessage [terminal "ls"]]; toolCalls := [Some "ls"] |} in
  lastAssistantTextMessageContent result = None ∧
  onResponse result true (Sim.fresh_state Sim.silent)
  = (Returns result, Sim.fresh_state Sim.silent).
Proof.
  simpl. split; [reflexivity|].
  apply (@completion_detector_without_text Sim.World Sim.environment
           {| output := [ToolCallMessage [terminal "ls"]];
              toolCalls := [Some "ls"] |}
           (Sim.fresh_state Sim.silent) ltac:(reflexivity)).
Defined.

Lemma terminal_result_witness :
  (terminal_handler "sbx-1" (Some ()) "exit 1" (Sim.fresh_state Sim.silent)).1
  = Returns (Some ("Command failed: CommandExitError: exit status 1"
                     +:+ " stdout: partial output" +:+ newline
                     +:+ "stderr: boom")).
Proof.
  destruct (@terminal_result Sim.World Sim.environment "sbx-1" "exit 1" (Sim.fresh_state Sim.silent))
    as (_ & Hfail & _).
  by rewrite (Hfail _ _ _ _ ltac:(reflexivity) ltac:(reflexivity) ltac:(reflexivity)).
Defined.

Lemma files_last_write_wins_witness :
  let m := Sim.fresh_state Sim.silent in
  let m' := (invoke_all "sbx-1" (Some ()) sim_mixed_turn m).2 in
  committed "sbx-1" (Some ()) sim_mixed_turn m = (sim_file_a ++ sim_file_b)%list ∧
  state_files m' !! "a.txt" = Some "1" ∧
  state_files m' !! "b.txt" = Some "2" ∧
  state_files m' !! "" = None.
Proof.
  cbv zeta.
  assert (committed "sbx-1" (Some ()) sim_mixed_turn (Sim.fresh_state Sim.silent)
          = (sim_file_a ++ sim_file_b)%list) as Hc by (vm_compute; reflexivity).
  split; [exact Hc|].
  destruct (@files_last_write_wins Sim.World Sim.environment "sbx-1")
    as [Hturn _].
  rewrite !Hturn, Hc by discriminate.
  split; [reflexivity|]. split; [reflexivity|]. vm_compute. reflexivity.
Defined.

Lemma summary_set_at_most_once_witness :
  let m0 := Sim.fresh_state Sim.todo_app in
  let run := network_run "sbx-1" (Some ()) maxIter "build a todo app" m0 in
  summary_of m0 = "" ∧
  summary_of run.2 = Sim.announcement ∧
  router run.2 = (Returns None, run.2).
Proof.
  cbv zeta.
  destruct (@summary_set_at_most_once Sim.World Sim.environment "sbx-1"
              (Some ()) maxIter "build a todo app"
              (Sim.fresh_state Sim.todo_app))
    as (_ & Hpath & _ & Hkeep).
  assert (∃ c m', network_run "sbx-1" (Some ()) maxIter "build a todo app"
                    (Sim.fresh_state Sim.todo_app) = (Returns c, m') ∧
                  summary_of m' = Sim.announcement) as (c & m' & Hrun & Hsum)
    by (eexists _, _; split; vm_compute; reflexivity).
  rewrite Hrun. cbn [snd].
  split; [vm_compute; reflexivity|]. split; [exact Hsum|].
  assert (summary_of m' ≠ "") as Hne by (rewrite Hsum; discriminate).
  exact (proj2 (proj2 (Hkeep (c, m') (c, m') (Hpath c m' Hrun)
                         (rtc_refl _ _) Hne))).
Defined.

Lemma loop_stops_at_cap_witness :
  let run :=
    network_run "sbx-1" (Some ()) maxIter "hello" (Sim.fresh_state Sim.silent) in
  ∃ c, run.1 = Returns c ∧ at_phase c = DONE ∧ counter c = 15 ∧
       isError run.2 = true.
Proof.
  cbv zeta.
  destruct (@loop_stops_at_cap Sim.World Sim.environment "sbx-1" (Some ())
              "hello" (Sim.fresh_state Sim.silent)) as [Hcap Htotal].
  destruct (Htotal (sim_infer_total "hello")) as (c & m' & Hrun).
  assert (summary_of
            (network_run "sbx-1" (Some ()) maxIter "hello"
               (Sim.fresh_state Sim.silent)).2 = "") as Hempty
    by (vm_compute; reflexivity).
  rewrite Hrun in Hempty |- *.
  destruct (Hcap c m' Hrun) as (Hdone & _ & _ & Hexact).
  destruct (Hexact Hempty) as [Hcount Herr].
  exists c. exact (conj eq_refl (conj Hdone (conj Hcount Herr))).
Defined.

Lemma run_outcome_and_record_witness :
  let run := codeAgentFunction Sim.event (boot Sim.silent) in
  run.1 = Returns Sim.silent_output ∧
  persisted run.2 = [error_record Sim.event].
Proof.
  cbv zeta.
  assert (codeAgentFunction Sim.event (boot Sim.silent)
          = (Returns Sim.silent_output,
             (codeAgentFunction Sim.event (boot Sim.silent)).2)) as Hrun
    by (vm_compute; reflexivity).
  split; [exact (f_equal fst Hrun)|].
  destruct (@run_outcome_and_record Sim.World Sim.environment _ _ _ _ Hrun)
    as (_ & record & Hp & _ & Hfail).
  rewrite Hp, (Hfail (or_introl eq_refl)). reflexivity.
Defined.

Lemma returned_title_is_fragment_witness :
  let run := codeAgentFunction Sim.event (boot Sim.todo_app) in
  run.1 = Returns Sim.todo_output ∧
  out_title Sim.todo_output = "Fragment" ∧
  fragment_title <$> (last (persisted run.2) ≫= msg_fragment) = Some "Todo App".
Proof.
  cbv zeta.
  assert (codeAgentFunction Sim.event (boot Sim.todo_app)
          = (Returns Sim.todo_output,
             (codeAgentFunction Sim.event (boot Sim.todo_app)).2)) as Hrun
    by (vm_compute; reflexivity).
  split; [exact (f_equal fst Hrun)|].
  destruct (@returned_title_is_fragment Sim.World Sim.environment _ _ _ _ Hrun)
    as [Htitle _].
  split; [exact Htitle|]. vm_compute. reflexivity.
Defined.


(** * Further properties of the tools, the detector and the run *)

Section ToolCoverage.
Context {W : Type} `{Environment W}.
Variable sandboxId : string.

Local Open Scope run_scope.

Lemma read_each_spec (paths : list string) (contents : list FileContent)
    (m : Mem W) r m' :
  read_each paths contents m = (r, m') →
  same_process m m' ∧
  match r with
  | Returns out =>
      ∃ new : list FileContent,
        out = (contents ++ new)%list ∧ fc_path <$> new = paths ∧
        ∀ x, x ∈ new →
             ∃ w w', files_read (fc_path x) w = (Returns (fc_content x), w')
  | Throws e => ∃ p w w', p ∈ paths ∧ files_read p w = (Throws e, w')
  end.
Proof.
  revert contents m. induction paths as [|p paths IH]; intros contents m; simpl.
  - intros [= <- <-]. split; [done|]. exists []. rewrite app_nil_r.
    repeat split; try done. intros x Hx. by apply elem_of_nil in Hx.
  - unfold bind at 1.
    destruct (call (files_read p) m) as [[c|e] m1] eqn:Hr;
      apply call_result in Hr as [Hr Hs].
    + intros Hrest. apply IH in Hrest as [Hs' Hres].
      split; [by etrans|]. destruct r as [out|e].
      * destruct Hres as (new & -> & Hp & Hall).
        exists ({| fc_path := p; fc_content := c |} :: new).
        rewrite <- app_assoc. repeat split; try done.
        -- by rewrite fmap_cons, Hp.
        -- intros x [->|Hx]%elem_of_cons; [by eexists _, _|by apply Hall].
      * destruct Hres as (q & w & w' & Hq & Hw).
        exists q, w, w'. split; [by right|done].
    + intros [= <- <-]. split; [done|].
      exists p, (world m), (world m1). split; [by left|done].
Qed.

(** X1. [readFiles] never throws and never touches the memory of the process.
    What it hands back is complete or an error, never a partial list: either
    the JSON text of one record per requested path, in the order of the
    request, each content being what the sandbox returned for that path, or
    ["Error: " + e] for the failure [e] of the connection or of one of the
    reads, whatever had been read before. *)
Theorem readFiles_complete_or_error (paths : list string) (m : Mem W) :
  ∃ s m',
    readFiles_handler sandboxId (Some ()) paths m = (Returns (Some s), m') ∧
    same_process m m' ∧
    ((∃ contents,
        s = JSON_stringify contents ∧ fc_path <$> contents = paths ∧
        ∀ x, x ∈ contents →
             ∃ w w', files_read (fc_path x) w = (Returns (fc_content x), w')) ∨
     (∃ e, s = "Error: " +:+ e ∧
           ((∃ w w', getSandbox sandboxId w = (Throws e, w')) ∨
            (∃ p w w', p ∈ paths ∧ files_read p w = (Throws e, w'))))).
Proof.
  rewrite readFiles_handler_unfold. unfold readFiles_step.
  unfold bind at 1, try_catch, bind at 1.
  destruct (call (getSandbox sandboxId) m) as [[[]|e] m1] eqn:Hg;
    apply call_result in Hg as [Hg Hs].
  - unfold bind at 1.
    destruct (read_each paths [] m1) as [[out|e] m2] eqn:Hr;
      apply read_each_spec in Hr as [Hs' Hres].
    + destruct Hres as (new & -> & Hp & Hall).
      eexists _, _. split; [reflexivity|]. split; [by etrans|].
      left. by exists new.
    + destruct Hres as (p & w & w' & Hp & Hw).
      eexists _, _. split; [reflexivity|]. split; [by etrans|].
      right. exists e. split; [done|]. right. by exists p, w, w'.
  - eexists _, _. split; [reflexivity|]. split; [done|].
    right. exists e. split; [done|]. left. by eexists _, _.
Qed.

Lemma world_only_ret {A} (a : A) : world_only (ret a : M W A).
Proof. by intros m m' Hw. Qed.

Lemma world_only_call {A} (op : W → outcome A * W) : world_only (call op).
Proof.
  intros m m' Hw. unfold call. rewrite Hw.
  by destruct (op (world m')) as [r w].
Qed.

Lemma world_only_bind {A B} (c : M W A) (k : A → M W B) :
  world_only c → (∀ a, world_only (k a)) → world_only (bind c k).
Proof.
  intros Hc Hk m m' Hw. unfold bind. destruct (Hc m m' Hw) as [Hr Hw1].
  destruct (c m) as [[a|e] m1], (c m') as [[a'|e'] m1']; simpl in *;
    try discriminate.
  - injection Hr as <-. by apply Hk.
  - injection Hr as <-. by split.
Qed.

Lemma world_only_try_catch {A} (c : M W A) (h : string → M W A) :
  world_only c → (∀ e, world_only (h e)) → world_only (try_catch c h).
Proof.
  intros Hc Hh m m' Hw. unfold try_catch. destruct (Hc m m' Hw) as [Hr Hw1].
  destruct (c m) as [[a|e] m1], (c m') as [[a'|e'] m1']; simpl in *;
    try discriminate.
  - by split.
  - injection Hr as <-. by apply Hh.
Qed.

Lemma world_only_attempt {A} (c : M W A) :
  world_only c → world_only (attempt c).
Proof.
  intros Hc m m' Hw. unfold attempt. destruct (Hc m m' Hw) as [Hr Hw1].
  destruct (c m) as [r m1], (c m') as [r' m1']. simpl in *. by subst.
Qed.

Lemma world_only_optional_step_run {A} `{Plain (W:=W) A} (step : option ())
    (id : string) (c : M W A) :
  respects state_kept c → world_only c →
  world_only (optional_step_run step id c).
Proof.
  intros Hk Hc m m' Hw. rewrite !optional_step_run_idle by done.
  destruct step; [|done]. revert m m' Hw.
  apply world_only_bind; [done|]. intros a. apply world_only_ret.
Qed.

Lemma world_only_read_each (paths : list string) (contents : list FileContent) :
  world_only (read_each paths contents).
Proof.
  revert contents. induction paths as [|p paths IH]; intros contents; simpl.
  - apply world_only_ret.
  - apply world_only_bind; [apply world_only_call | intros; apply IH].
Qed.

(** X2. The [terminal] and [readFiles] tools work on the sandbox alone: run
    from two memories that agree on the world, whatever the Agent State, the
    history and the results in them, each hands back the same value and
    leaves the same world. *)
Theorem sandbox_tools_ignore_agent_state (step : option ()) (m m' : Mem W) :
  world m = world m' →
  (∀ command,
     (terminal_handler sandboxId step command m).1
     = (terminal_handler sandboxId step command m').1 ∧
     world (terminal_handler sandboxId step command m).2
     = world (terminal_handler sandboxId step command m').2) ∧
  (∀ paths,
     (readFiles_handler sandboxId step paths m).1
     = (readFiles_handler sandboxId step paths m').1 ∧
     world (readFiles_handler sandboxId step paths m).2
     = world (readFiles_handler sandboxId step paths m').2).
Proof.
  intros Hw. split.
  - intros command. revert m m' Hw. apply world_only_optional_step_run.
    { eapply respects_weaken;
        [apply same_process_state_kept | apply terminal_step_same_process]. }
    unfold terminal_step. apply world_only_bind.
    + apply world_only_attempt, world_only_call.
    + intros [[]|e]; [|apply world_only_ret].
      apply world_only_bind; [apply world_only_call|].
      intros run. destruct (ended run); apply world_only_ret.
  - intros paths. revert m m' Hw. apply world_only_optional_step_run.
    { eapply respects_weaken;
        [apply same_process_state_kept | apply readFiles_step_same_process]. }
    apply world_only_try_catch; [|intros; apply world_only_ret].
    apply world_only_bind; [apply world_only_call|]. intros _.
    apply world_only_bind; [apply world_only_read_each|]. intros.
    apply world_only_ret.
Qed.

(** X3. [createOrUpdateFiles] never throws and always hands the model
    [undefined]: neither the updated mapping nor the error string of a failed
    write reaches the agent, so its result does not tell a success from a
    failure. *)
Theorem createOrUpdateFiles_hands_back_undefined (step : option ())
    (file : list FileItem) (m : Mem W) :
  (createOrUpdateFiles_handler sandboxId step file m).1 = Returns None ∧
  (∀ v m1, createOrUpdateFiles_step sandboxId file m = (v, m1) →
           (∃ l, v = Returns (VObject l)) ∨
           (∃ e, v = Returns (VString ("Error: " +:+ e)))).
Proof.
  split.
  - destruct step as [[]|]; [|done].
    by destruct (createOrUpdateFiles_handler_spec sandboxId file m)
      as (m' & -> & _).
  - intros v m1 Hstep.
    destruct (createOrUpdateFiles_step_spec sandboxId file m)
      as (v' & m' & ? & ? & Hs & _ & _ & _ & _ & _ & _ & _ & Hv).
    rewrite Hs in Hstep. injection Hstep as <- <-.
    destruct Hv as [[-> _]|[e ->]]; [left|right]; by eexists.
Qed.

(** X4. However many tools a turn invokes and however they end, the
    invocations never throw, hand back one output per call, and leave the
    summary, the history, the results and the persisted records of the
    process as they were. *)
Theorem tools_leave_rest_of_state (step : option ()) (ts : list ToolCall)
    (m : Mem W) :
  ∃ outs m',
    invoke_all sandboxId step ts m = (Returns outs, m') ∧
    List.length outs = List.length ts ∧
    summary_of m' = summary_of m ∧
    messages m' = messages m ∧ results m' = results m ∧
    persisted m' = persisted m.
Proof.
  destruct (invoke_all_total sandboxId step ts m) as (outs & m' & Hrun).
  exists outs, m'. split; [done|].
  pose proof (invoke_all_frame sandboxId step ts m _ _ Hrun)
    as (Hd & Hm & Hr & Hp & _).
  repeat split; try done.
  clear Hd Hm Hr Hp. revert m outs m' Hrun.
  induction ts as [|t ts IH]; intros m outs m'; simpl.
  - by intros [= <- <-].
  - unfold bind at 1.
    destruct (invoke_total sandboxId step t m) as (r & m1 & ->).
    unfold bind.
    destruct (invoke_all_total sandboxId step ts m1) as (rs & m2 & Hrest).
    rewrite Hrest. intros [= <- <-]. simpl. f_equal. by eapply IH.
Qed.

(** X5. A handler that is given no step tools does nothing at all: every tool
    invocation of a turn hands back [undefined], no sandbox call is made and
    the memory and the world are left as they were. *)
Theorem handlers_without_step_do_nothing (ts : list ToolCall) (m : Mem W) :
  invoke_all sandboxId None ts m
  = (Returns (replicate (List.length ts) None), m).
Proof.
  induction ts as [|t ts IH]; [done|].
  simpl. unfold bind at 1.
  assert (invoke sandboxId None t m = (Returns None, m)) as ->
    by (by destruct t).
  unfold bind. by rewrite IH.
Qed.

End ToolCoverage.

Section DetectorCoverage.
Context {W : Type} `{Environment W}.

Local Open Scope run_scope.

Lemma detected_idempotent (result : AgentResult) (m : Mem W) :
  detected result (detected result m) = detected result m.
Proof.
  unfold detected. destruct (lastAssistantTextMessageContent result); [|done].
  by destruct (truthy _ && includes _ _).
Qed.

Lemma detected_announcement (result : AgentResult) (m : Mem W) :
  detected result m
  = match announcement_of result with
    | Some t => with_summary m t
    | None => m
    end.
Proof.
  unfold detected, announcement_of.
  destruct (lastAssistantTextMessageContent result); [|done].
  by destruct (truthy _ && includes _ _).
Qed.

Lemma announcement_of_Some (result : AgentResult) (t : string) :
  announcement_of result = Some t ↔
  lastAssistantTextMessageContent result = Some t ∧
  ∃ pre post, t = pre +:+ "<task_summary>" +:+ post.
Proof.
  unfold announcement_of. rewrite <- (includes_true_iff t sentinel). split.
  - destruct (lastAssistantTextMessageContent result) as [t'|]; [|done].
    destruct (truthy t') eqn:Ht, (includes t' sentinel) eqn:Hi; try done.
    by intros [= <-].
  - intros [-> Hi]. by rewrite Hi, (includes_sentinel_truthy t Hi).
Qed.

(** X6. The completion detector is idempotent and confined to the summary:
    it always returns the result it was given, running it again on the same
    turn changes nothing more, it never touches the dictionaries, the files
    reference, the history, the results, the records or the world, and
    outside a network it changes nothing at all, whatever the text. *)
Theorem onResponse_idempotent (result : AgentResult) (network : bool)
    (m : Mem W) :
  let m1 := (onResponse result network m).2 in
  (onResponse result network m).1 = Returns result ∧
  onResponse result network m1 = (Returns result, m1) ∧
  onResponse result false m = (Returns result, m) ∧
  objects m1 = objects m ∧ files (data m1) = files (data m) ∧
  messages m1 = messages m ∧ results m1 = results m ∧
  persisted m1 = persisted m ∧ world m1 = world m.
Proof.
  cbv zeta. rewrite !onResponse_run. simpl. split; [done|].
  destruct network; simpl.
  - rewrite detected_idempotent. split; [done|]. split; [done|].
    by destruct (detected_frame result m) as (? & ? & ? & ? & ? & ?).
  - by repeat split.
Qed.

(** X7. Detections compose by the last announcement: after the detector has
    run on a sequence of turns, the summary is the final text of the last
    turn whose text carried the sentinel, and the summary from before if no
    turn carried it; the detector itself does not protect a summary that is
    already set. Nothing but the summary is changed. *)
Theorem detections_compose (rs : list AgentResult) (m : Mem W) :
  detect_all rs m
  = match last_announcement rs with
    | Some t => with_summary m t
    | None => m
    end.
Proof.
  revert m. induction rs as [|r rs IH]; intros m; [done|].
  change (detect_all (r :: rs) m)
    with (detect_all rs (onResponse r true m).2).
  rewrite onResponse_run, IH. simpl. rewrite detected_announcement.
  destruct (last_announcement rs), (announcement_of r); done.
Qed.

(** X8. The router reads what the detector wrote: after a turn whose final
    text carries the sentinel the router selects no agent, whatever the
    summary was; after a turn without such a text it selects exactly what it
    would have selected before the turn, the coding agent when the summary is
    empty. *)
Theorem router_after_detector (result : AgentResult) (m : Mem W) :
  let m1 := (onResponse result true m).2 in
  (∀ t pre post,
     lastAssistantTextMessageContent result = Some t →
     t = pre +:+ "<task_summary>" +:+ post →
     router m1 = (Returns None, m1)) ∧
  ((∀ t, lastAssistantTextMessageContent result = Some t →
         ¬ ∃ pre post, t = pre +:+ "<task_summary>" +:+ post) →
   m1 = m ∧
   router m1
   = (Returns (if truthy (summary_of m) then None else Some codeAgent), m)).
Proof.
  cbv zeta. rewrite onResponse_run. simpl. rewrite detected_announcement.
  split.
  - intros t pre post Ht Hs.
    assert (announcement_of result = Some t) as ->
      by (apply announcement_of_Some; split; [done|by exists pre, post]).
    rewrite router_run. unfold summary_of. simpl.
    assert (truthy t = true) as ->; [|done].
    apply includes_sentinel_truthy, includes_true_iff. by exists pre, post.
  - intros Hnone. destruct (announcement_of result) as [t|] eqn:Ha.
    + apply announcement_of_Some in Ha as [Ht Hs]. by destruct (Hnone t Ht).
    + split; [done|]. by rewrite router_run.
Qed.

End DetectorCoverage.

Lemma last_write_app (p : string) (a b : list FileItem) :
  last_write p (a ++ b)
  = match last_write p b with Some c => Some c | None => last_write p a end.
Proof.
  induction a as [|item a IH]; simpl.
  - by destruct (last_write p b).
  - rewrite IH. by destruct (last_write p b).
Qed.

Section MergeCoverage.
Context {W : Type} `{Environment W}.
Variable sandboxId : string.

Local Open Scope run_scope.

Lemma writes_succeed_one (file : list FileItem) (m : Mem W) :
  write_succeeds sandboxId file m →
  state_files (createOrUpdateFiles_handler sandboxId (Some ()) file m).2
  = merge_files (state_files m) file.
Proof.
  intros Hok.
  destruct (createOrUpdateFiles_handler_spec sandboxId file m)
    as (m1 & Hh & _ & _ & [[_ Hf]|[Hn _]]); [|done].
  by rewrite Hh.
Qed.

(** X9. Repeating a [createOrUpdateFiles] invocation is harmless for the
    state: when an invocation and its immediate repetition both succeed, the
    files mapping after the two is the mapping after the first. *)
Theorem createOrUpdateFiles_retry_is_idempotent (file : list FileItem)
    (m : Mem W) :
  writes_succeed sandboxId [file; file] m →
  state_files
    (invoke_all sandboxId (Some ())
       [createOrUpdateFiles file; createOrUpdateFiles file] m).2
  = state_files (createOrUpdateFiles_handler sandboxId (Some ()) file m).2.
Proof.
  intros Hok.
  pose proof (invoke_writes_merge sandboxId [file; file] m Hok) as Hboth.
  change (createOrUpdateFiles <$> [file; file])
    with [createOrUpdateFiles file; createOrUpdateFiles file] in Hboth.
  rewrite Hboth, (writes_succeed_one file m (proj1 Hok)).
  apply map_eq. intros p. rewrite !merge_files_lookup. simpl.
  rewrite app_nil_r, last_write_app. case_decide; [done|].
  by destruct (last_write p file).
Qed.

(** X10. Invocations that write disjoint sets of paths commute on the state:
    when both orders succeed, the files mapping after the one order is the
    mapping after the other. *)
Theorem disjoint_invocations_commute (f1 f2 : list FileItem) (m : Mem W) :
  (∀ p, last_write p f1 = None ∨ last_write p f2 = None) →
  writes_succeed sandboxId [f1; f2] m →
  writes_succeed sandboxId [f2; f1] m →
  state_files
    (invoke_all sandboxId (Some ())
       [createOrUpdateFiles f1; createOrUpdateFiles f2] m).2
  = state_files
      (invoke_all sandboxId (Some ())
         [createOrUpdateFiles f2; createOrUpdateFiles f1] m).2.
Proof.
  intros Hdisj H12 H21.
  pose proof (invoke_writes_merge sandboxId [f1; f2] m H12) as Ha.
  pose proof (invoke_writes_merge sandboxId [f2; f1] m H21) as Hb.
  change (createOrUpdateFiles <$> [f1; f2])
    with [createOrUpdateFiles f1; createOrUpdateFiles f2] in Ha.
  change (createOrUpdateFiles <$> [f2; f1])
    with [createOrUpdateFiles f2; createOrUpdateFiles f1] in Hb.
  rewrite Ha, Hb. apply map_eq. intros p. rewrite !merge_files_lookup. simpl.
  rewrite !app_nil_r, !last_write_app. case_decide; [done|].
  destruct (Hdisj p) as [Hn|Hn]; rewrite Hn;
    [destruct (last_write p f2)|destruct (last_write p f1)]; done.
Qed.

End MergeCoverage.

Section AgreementCoverage.
Context {W : Type} `{SandboxFiles W}.
Variable sandboxId : string.

Local Open Scope run_scope.

Lemma createOrUpdateFiles_reads_all (file : list FileItem) (m m1 : Mem W)
    (p c : string) :
  write_succeeds sandboxId file m →
  createOrUpdateFiles_handler sandboxId (Some ()) file m = (Returns None, m1) →
  (last_write p file = Some c ∨
   (last_write p file = None ∧ reads_as (world m) p c)) →
  reads_as (world m1) p c.
Proof.
  intros (l & m2 & Hstep) Hh Hl.
  destruct (createOrUpdateFiles_handler_spec sandboxId file m)
    as (m1' & Hh' & Hworld & _).
  rewrite Hh in Hh'. injection Hh' as <-. rewrite Hworld, Hstep. cbn [snd].
  unfold createOrUpdateFiles_step, try_catch, bind at 1, get in Hstep.
  unfold bind at 1 in Hstep.
  destruct (call (getSandbox sandboxId) m) as [[[]|e] m3] eqn:Hg; [|done].
  apply call_result in Hg as [Hg _].
  unfold bind in Hstep.
  destruct (write_each (files (data m)) file m3) as [[[]|e] m4] eqn:Hw; [|done].
  injection Hstep as _ <-.
  eapply write_each_reads; [done|].
  destruct Hl as [?|[? Hr]]; [by left|right]. split; [done|].
  by eapply read_after_connect.
Qed.

Lemma invocations_read (calls : list (list FileItem)) (m : Mem W)
    (p c : string) :
  writes_succeed sandboxId calls m →
  (last_write p (List.concat calls) = Some c ∨
   (last_write p (List.concat calls) = None ∧ reads_as (world m) p c)) →
  reads_as
    (world (invoke_all sandboxId (Some ()) (createOrUpdateFiles <$> calls) m).2)
    p c.
Proof.
  revert m. induction calls as [|file calls IH]; intros m Hok Hl.
  - by destruct Hl as [?|[_ ?]].
  - destruct Hok as [Hfile Hrest].
    destruct (createOrUpdateFiles_handler_spec sandboxId file m)
      as (m1 & Hh & _).
    rewrite Hh in Hrest.
    destruct (invoke_all_total sandboxId (Some ())
                (createOrUpdateFiles <$> calls) m1) as (rs & m2 & Hall).
    specialize (IH m1 Hrest). rewrite Hall in IH.
    change (invoke_all sandboxId (Some ())
              (createOrUpdateFiles <$> file :: calls) m)
      with (bind (createOrUpdateFiles_handler sandboxId (Some ()) file)
              (λ r, bind (invoke_all sandboxId (Some ())
                            (createOrUpdateFiles <$> calls))
                      (λ rs, ret (r :: rs))) m).
    unfold bind. rewrite Hh, Hall. simpl in *. apply IH.
    rewrite last_write_app in Hl.
    destruct (last_write p (List.concat calls)) as [c'|].
    + left. by destruct Hl as [Hl|[Hl _]].
    + right. split; [done|]. by eapply createOrUpdateFiles_reads_all.
Qed.

(** X11. When the sandbox keeps the filesystem contract, the files mapping
    of the state and the sandbox agree after any sequence of
    [createOrUpdateFiles] invocations that succeeded: every path they wrote,
    other than [__proto__], is in the mapping with the content of its last
    entry, and a sandbox read of that path that returns, returns that same
    content. *)
Theorem state_and_sandbox_agree (calls : list (list FileItem)) (m : Mem W)
    (p c : string) :
  writes_succeed sandboxId calls m →
  last_write p (List.concat calls) = Some c →
  p ≠ "__proto__" →
  let m' :=
    (invoke_all sandboxId (Some ()) (createOrUpdateFiles <$> calls) m).2 in
  state_files m' !! p = Some c ∧ reads_as (world m') p c.
Proof.
  intros Hok Hl Hp. cbv zeta. split.
  - by rewrite (invoke_writes_merge sandboxId calls m Hok),
      merge_files_lookup_ne, Hl.
  - apply invocations_read; [done|by left].
Qed.

End AgreementCoverage.

Section RunCoverage.
Context {W : Type} `{Environment W}.

Local Open Scope run_scope.

#[global] Instance log_kept_preorder : PreOrder (@log_kept W).
Proof.
  split; [by intros m|]. unfold log_kept. intros m1 m2 m3 ? ?. congruence.
Qed.

Lemma call_log_kept {A} (op : W → outcome A * W) : respects log_kept (call op).
Proof. intros m r m' Hc. by apply call_same_process in Hc as (_ & _ & _ & _ & ?). Qed.

Lemma transition_loop_frame (sandboxId : string) (step : option ())
    (cap : nat) (input : string) (c : Loop) :
  respects loop_frame (transition sandboxId step cap input c).
Proof.
  intros m r m' Ht. destruct (at_phase c) eqn:Hc.
  - rewrite transition_pending in Ht by done. injection Ht as <- <-.
    reflexivity.
  - apply transition_executing in Ht as [Hf _]; [|done].
    by apply tool_frame_loop_frame.
  - erewrite transition_check in Ht by done. injection Ht as <- <-.
    destruct (detected_frame result m) as (Ho & Hfi & Hm & _ & Hp & _).
    unfold loop_frame, heap_kept, state_files. simpl. rewrite Ho, Hfi.
    by repeat split.
  - rewrite transition_done in Ht by done. injection Ht as <- <-.
    reflexivity.
Qed.

Lemma iterate_loop_frame (fuel : nat) (sandboxId : string) (step : option ())
    (cap : nat) (input : string) (c : Loop) :
  respects loop_frame (iterate fuel sandboxId step cap input c).
Proof.
  revert c. induction fuel as [|fuel IH]; intros c; simpl.
  - apply respects_ret; apply _.
  - assert (respects loop_frame
              (bind (transition sandboxId step cap input c)
                 (λ c1, iterate fuel sandboxId step cap input c1))) as Hgo
      by (apply respects_bind; [apply _ | apply transition_loop_frame | done]).
    destruct (at_phase c); try done. apply respects_ret; apply _.
Qed.

Lemma network_run_log_kept (sandboxId : string) (step : option ())
    (cap : nat) (input : string) :
  respects (@log_kept W) (network_run sandboxId step cap input).
Proof.
  intros m r m' Hrun. by apply iterate_loop_frame in Hrun as (_ & ? & _ & _).
Qed.

Lemma createState_log_kept (previousMessages : list Message) :
  respects (@log_kept W) (createState previousMessages).
Proof.
  intros m r m' Hc.
  destruct (createState_run previousMessages m) as (m1 & Hc' & _ & _ & Hp & _).
  rewrite Hc in Hc'. by injection Hc' as _ ->.
Qed.

Lemma create_message_throws_keep (d : MessageData) :
  throws_keep (create_message d).
Proof.
  intros m e m'. unfold create_message. intros Hc.
  apply bind_cases in Hc as [(e' & _ & Hc)|(a & m1 & Hc & Hrest)].
  - by apply call_log_kept in Hc.
  - discriminate.
Qed.

Lemma save_result_throws_keep (event : Event) (is_error : bool) (url : string)
    (titleOut respOut : list Message) :
  throws_keep (save_result event is_error url titleOut respOut).
Proof.
  unfold save_result. destruct is_error; [apply create_message_throws_keep|].
  intros m e m' Hs.
  apply bind_cases in Hs as [(? & _ & Hs)|(response & m1 & Hr & Hs)];
    [by injection Hs as _ <-|].
  injection Hr as _ <-.
  apply bind_cases in Hs as [(? & _ & Hs)|(title & m2 & Ht & Hs)];
    [by injection Hs as _ <-|].
  injection Ht as _ <-.
  apply bind_cases in Hs as [(? & _ & Hs)|(m3 & m4 & Hg & Hs)];
    [discriminate|].
  injection Hg as <- <-. by eapply create_message_throws_keep.
Qed.

Lemma throws_keep_bind {A B} (c : M W A) (k : A → M W B) :
  respects log_kept c → (∀ a, throws_keep (k a)) → throws_keep (bind c k).
Proof.
  intros Hc Hk m e m' Hb.
  apply bind_cases in Hb as [(e' & _ & Hb)|(a & m1 & Hb & Hrest)].
  - by eapply Hc.
  - etrans; [by eapply Hc | by eapply Hk].
Qed.

(** X12. A run that throws has persisted no record. Together with the one
    record of a run that returns: a run persists at most one record, and
    none when provisioning, the history query, an inference, a generator, the
    resolution of the sandbox address or the store itself fails. *)
Theorem throwing_run_persists_nothing (event : Event) (m0 : Mem W)
    (e : string) (m' : Mem W) :
  codeAgentFunction event m0 = (Throws e, m') →
  persisted m' = persisted m0.
Proof.
  rewrite codeAgentFunction_steps. revert m0 e m'.
  apply throws_keep_bind.
  { apply respects_bind; [apply _ | apply call_log_kept | intros].
    apply respects_bind; [apply _ | apply call_log_kept | intros].
    apply respects_ret; apply _. }
  intros sandboxId. apply throws_keep_bind.
  { apply respects_bind; [apply _ | apply call_log_kept | intros].
    apply respects_ret; apply _. }
  intros previousMessages. apply throws_keep_bind;
    [apply createState_log_kept|]. intros _.
  apply throws_keep_bind; [apply network_run_log_kept|]. intros _.
  apply throws_keep_bind; [apply respects_get; apply _|]. intros result.
  apply throws_keep_bind; [apply call_log_kept|]. intros titleOut.
  apply throws_keep_bind; [apply call_log_kept|]. intros respOut.
  apply throws_keep_bind.
  { apply respects_bind; [apply _ | apply call_log_kept | intros].
    apply respects_bind; [apply _ | apply call_log_kept | intros].
    apply respects_ret; apply _. }
  intros url m e m' Hrun.
  apply bind_cases in Hrun as [(? & _ & Hs)|(? & m1 & _ & Hrest)].
  - by eapply save_result_throws_keep.
  - discriminate.
Qed.

(** X13. A failure of provisioning or of the history query aborts the run
    with that very error before anything else happens: the error of
    [Sandbox.create], of the ten-minute [setTimeout] or of the query is what
    the run throws, and the memory of the process is untouched. *)
Theorem provisioning_failure_aborts (event : Event) (m0 : Mem W) :
  (∀ e w,
     Sandbox_create "lovable-test" (world m0) = (Throws e, w) →
     codeAgentFunction event m0 = (Throws e, with_world m0 w)) ∧
  (∀ id w1 e w2,
     Sandbox_create "lovable-test" (world m0) = (Returns id, w1) →
     Sandbox_setTimeout 600000 w1 = (Throws e, w2) →
     codeAgentFunction event m0 = (Throws e, with_world m0 w2)) ∧
  (∀ id w1 w2 e w3,
     Sandbox_create "lovable-test" (world m0) = (Returns id, w1) →
     Sandbox_setTimeout 600000 w1 = (Returns (), w2) →
     message_findMany (event_projectId event) w2 = (Throws e, w3) →
     codeAgentFunction event m0 = (Throws e, with_world m0 w3)).
Proof.
  rewrite codeAgentFunction_steps. repeat split.
  - intros e w Hc. unfold bind, call. by rewrite Hc.
  - intros id w1 e w2 Hc Ht. unfold bind, call. rewrite Hc. simpl.
    change (60000 * 10 * 1)%Z with 600000%Z. by rewrite Ht.
  - intros id w1 w2 e w3 Hc Ht Hf. unfold bind, call. rewrite Hc. simpl.
    change (60000 * 10 * 1)%Z with 600000%Z. rewrite Ht. simpl. by rewrite Hf.
Qed.

End RunCoverage.

Section StageCoverage.
Context {W : Type} `{Environment W}.

Local Open Scope run_scope.

(** A run that returns, with every collaborator answer it was built from. *)
Lemma codeAgentFunction_stages (event : Event) (m0 : Mem W) out m' :
  codeAgentFunction event m0 = (Returns out, m') →
  ∃ (sandboxId : string) (found : list DbMessage) (ms ml : Mem W) (c : Loop)
    (titleOut respOut : list Message) (host : string) (record : MessageData),
    (∃ w w', message_findMany (event_projectId event) w = (Returns found, w')) ∧
    messages ms = rev (map format_message found) ∧
    summary_of ms = "" ∧
    network_run sandboxId (Some ()) maxIter (event_value event) ms
      = (Returns c, ml) ∧
    (∃ w w', generator_run responseGenerator (summary_of ml) w
             = (Returns respOut, w')) ∧
    (∃ w w', getHost 3000 w = (Returns host, w')) ∧
    out = {| out_url := "http://" +:+ host; out_title := "Fragment";
             out_files := state_files ml; out_summary := summary_of ml |} ∧
    messages m' = messages ms ∧ results m' = results ml ∧
    persisted m' = (persisted m0 ++ [record])%list ∧
    msg_projectId record = event_projectId event ∧
    ∀ f, msg_fragment record = Some f →
         fragment_sandboxUrl f = "http://" +:+ host ∧
         fragment_files f = state_files ml ∧
         generateResponse respOut = Returns (msg_content record) ∧
         isError ml = false.
Proof.
  rewrite codeAgentFunction_steps.
  intros (sandboxId & m1 & Hsb & Hrun)%bind_returns.
  assert (same_process m0 m1) as (_ & _ & _ & _ & Hp1).
  { revert Hsb. apply respects_bind; [apply _ | apply call_same_process |].
    intros id. apply respects_bind; [apply _ | apply call_same_process |].
    intros _. apply respects_ret; apply _. }
  apply bind_returns in Hrun as (previousMessages & m2 & Hprev & Hrun).
  apply bind_returns in Hprev as (found & m2' & Hfound & Hprev).
  apply call_result in Hfound as (Hfound & _ & _ & _ & _ & Hp2).
  injection Hprev as <- <-.
  apply bind_returns in Hrun as ([] & ms & Hcs & Hrun).
  destruct (createState_run (rev (map format_message found)) m2')
    as (ms' & Hcs' & Hsum & _ & Hp3 & _ & _ & Hmsg).
  rewrite Hcs in Hcs'. injection Hcs' as <-.
  apply bind_returns in Hrun as (c & ml & Hnet & Hrun).
  destruct (network_run_returns sandboxId (Some ()) maxIter (event_value event)
              ms c ml ltac:(unfold maxIter; lia) Hnet)
    as (_ & _ & _ & (Hm4 & Hp4 & _ & _)).
  apply bind_returns in Hrun as (result & m3 & Hget & Hrun).
  injection Hget as <- <-.
  apply bind_returns in Hrun as (titleOut & m4 & Ht & Hrun).
  apply call_result in Ht as (Ht & Ho4 & Hd4 & Hm5 & Hr5 & Hp5).
  apply bind_returns in Hrun as (respOut & m5 & Hr & Hrun).
  apply call_result in Hr as (Hr & Ho5 & Hd5 & Hm6 & Hr6 & Hp6).
  apply bind_returns in Hrun as (url & m6 & Hu & Hrun).
  apply bind_returns in Hu as ([] & m6a & Hconn & Hu).
  apply call_result in Hconn as (Hconn & Ho6a & Hd6a & Hm6a & Hr6a & Hp6a).
  apply bind_returns in Hu as (host & m6b & Hhost & Hu).
  apply call_result in Hhost as (Hhost & Ho6b & Hd6b & Hm6b & Hr6b & Hp6b).
  injection Hu as <- <-.
  apply bind_returns in Hrun as ([] & m7 & Hsave & Hrun).
  pose proof (save_result_state_kept _ _ _ _ _ _ _ _ Hsave)
    as (Ho7 & Hd7 & Hm7 & Hr7).
  apply save_result_returns in Hsave as (_ & _ & record & Hp8 & Hrec).
  apply bind_returns in Hrun as (mf & m8 & Hget & Hrun).
  injection Hget as <- <-. injection Hrun as <- <-.
  assert (state_files m6b = state_files ml) as Hf6
    by (unfold state_files; congruence).
  assert (state_files m7 = state_files ml) as Hf7
    by (unfold state_files; congruence).
  assert (summary_of m7 = summary_of ml) as Hs7
    by (unfold summary_of; congruence).
  exists sandboxId, found, ms, ml, c, titleOut, respOut, host, record.
  split; [by eexists _, _|]. split; [done|]. split; [done|].
  split; [done|]. split; [by eexists _, _|]. split; [by eexists _, _|].
  split; [unfold summary_of in *; by rewrite Hf7, Hs7|].
  split; [congruence|]. split; [congruence|].
  split; [rewrite Hp8; congruence|].
  destruct (isError ml).
  - subst record. by split.
  - destruct Hrec as (response & title & Hresp & _ & ->). simpl.
    split; [done|]. intros f [= <-]. simpl. by rewrite Hf6.
Qed.

(** X14. The history given to the network is the stored messages of the
    project in the reverse of the order the store returned them, which is
    oldest first: as many messages as the query returned, each a text
    message with the stored content as a plain string, the role [assistant]
    for a stored ASSISTANT message and [user] for any other, and no tool call
    among them. The run never changes it. *)
Theorem history_is_oldest_first (event : Event) (m0 : Mem W) (out : Output)
    (m' : Mem W) :
  codeAgentFunction event m0 = (Returns out, m') →
  ∃ found,
    (∃ w w', message_findMany (event_projectId event) w = (Returns found, w')) ∧
    List.length (messages m') = List.length found ∧
    (∀ i d, found !! i = Some d →
       messages m' !! (List.length found - S i)
       = Some (TextMessage
                 (match db_role d with ASSISTANT => assistant | USER => user end)
                 (inl (db_content d)))) ∧
    requested (messages m') = [].
Proof.
  intros Hrun. apply codeAgentFunction_stages in Hrun
    as (sandboxId & found & ms & ml & c & titleOut & respOut & host & record
        & Hfound & Hms & _ & _ & _ & _ & _ & Hm & _).
  exists found. split; [done|]. rewrite Hm, Hms.
  change (map format_message found) with (format_message <$> found).
  rewrite rev_alt. change (rev_append (format_message <$> found) [])
    with (reverse (format_message <$> found)).
  rewrite length_reverse, length_fmap. split; [done|]. split.
  - intros i d Hd. pose proof (lookup_lt_Some _ _ _ Hd) as Hi.
    rewrite reverse_lookup by (rewrite length_fmap; lia).
    rewrite length_fmap, list_lookup_fmap.
    replace (List.length found - S (List.length found - S i)) with i by lia.
    by rewrite Hd.
  - clear. induction found as [|d found IH]; [done|].
    rewrite fmap_cons, reverse_cons.
    assert (∀ a b, requested (a ++ b) = (requested a ++ requested b)%list)
      as Happ.
    { intros a b. induction a as [|[] a IHa]; simpl; try done.
      by rewrite IHa, app_assoc. }
    by rewrite Happ, IH.
Qed.

(** X15. Saving the result reads the generators' outputs only on success.
    On failure the outputs are never looked at. On success an empty output of
    either generator makes the step throw a TypeError before the store is
    called, so nothing is persisted; with two non-empty outputs the step can
    fail only if the store does. *)
Theorem save_result_reads_outputs_on_success (event : Event) (url : string)
    (titleOut respOut : list Message) (m : Mem W) :
  save_result event true url titleOut respOut m
  = save_result event true url [] [] m ∧
  (respOut = [] ∨ titleOut = [] →
   save_result event false url titleOut respOut m
   = (Throws "TypeError: Cannot read properties of undefined (reading 'type')",
      m)) ∧
  (respOut ≠ [] → titleOut ≠ [] →
   ∀ e m', save_result event false url titleOut respOut m = (Throws e, m') →
           ∃ d w w', message_create d w = (Throws e, w')).
Proof.
  split; [done|]. split.
  - intros [-> | ->]; unfold save_result, bind, lift; [done|].
    by destruct respOut as [|[? []| |] ?].
  - intros Hr Ht e m' Hs. unfold save_result in Hs.
    apply bind_cases in Hs as [(? & _ & Hs)|(response & m1 & _ & Hs)].
    { destruct respOut as [|[? []| |] ?]; done. }
    apply bind_cases in Hs as [(? & _ & Hs)|(title & m2 & _ & Hs)].
    { destruct titleOut as [|[? []| |] ?]; done. }
    apply bind_cases in Hs as [(? & _ & Hs)|(m3 & m4 & _ & Hs)]; [done|].
    unfold create_message in Hs.
    apply bind_cases in Hs as [(? & [= <-] & Hs)|(? & ? & _ & Hs)]; [|done].
    apply call_result in Hs as [Hs _]. by eexists _, _, _.
Qed.

(** X16. The title and the response are read from the first message of a
    generator's output alone, whatever its role: a string content is taken
    as it is and an array content is joined; the two extractions agree on
    every text message and differ only in the fallback for a first message
    that is not a text: [Fragment] and [Here you go!]. *)
Theorem extractors_read_first_message (first : Message) (rest : list Message) :
  generateFragmentTitle (first :: rest) = generateFragmentTitle [first] ∧
  generateResponse (first :: rest) = generateResponse [first] ∧
  (∀ role body,
     first = TextMessage role body →
     generateFragmentTitle (first :: rest) = generateResponse (first :: rest) ∧
     generateResponse (first :: rest)
     = Returns (match body with
                | inl s => s
                | inr parts => join_empty (map part_toString parts)
                end)) ∧
  ((∀ role body, first ≠ TextMessage role body) →
   generateFragmentTitle (first :: rest) = Returns "Fragment" ∧
   generateResponse (first :: rest) = Returns "Here you go!").
Proof.
  split; [by destruct first as [? []| |]|].
  split; [by destruct first as [? []| |]|]. split.
  - intros role body ->. by destruct body.
  - intros Hnot. destruct first as [role body| |]; try done.
    by destruct (Hnot role body).
Qed.

(** X17. What a successful run persists and what it returns agree: the
    address is [http://] followed by the host of port 3000 in both, the
    fragment holds the very files mapping that is returned, the record
    belongs to the project of the event, and its content is the response
    extracted from the output of the response generator run on the returned
    summary. *)
Theorem record_and_result_agree (event : Event) (m0 : Mem W) (out : Output)
    (m' : Mem W) :
  codeAgentFunction event m0 = (Returns out, m') →
  ∃ host record,
    (∃ w w', getHost 3000 w = (Returns host, w')) ∧
    out_url out = "http://" +:+ host ∧
    last (persisted m') = Some record ∧
    msg_projectId record = event_projectId event ∧
    ∀ f, msg_fragment record = Some f →
         fragment_sandboxUrl f = out_url out ∧
         fragment_files f = out_files out ∧
         out_summary out ≠ "" ∧ out_files out ≠ ∅ ∧
         ∃ respOut,
           (∃ w w', generator_run responseGenerator (out_summary out) w
                    = (Returns respOut, w')) ∧
           generateResponse respOut = Returns (msg_content record).
Proof.
  intros Hrun. apply codeAgentFunction_stages in Hrun
    as (sandboxId & found & ms & ml & c & titleOut & respOut & host & record
        & _ & _ & _ & _ & Hresp & Hhost & -> & _ & _ & Hp & Hproj & Hfrag).
  exists host, record. simpl. split; [done|]. split; [done|].
  split; [by rewrite Hp, last_snoc|]. split; [done|].
  intros f Hf. destruct (Hfrag f Hf) as (Hurl & Hfiles & Hcontent & Hok).
  apply isError_false_iff in Hok as [? ?].
  repeat split; try done. by exists respOut.
Qed.

Lemma step_summary_marked (sandboxId : string) (step : option ()) (cap : nat)
    (input : string) (x y : Loop * Mem W) :
  step_rel sandboxId step cap input x y →
  summary_marked x.2 → summary_marked y.2.
Proof.
  intros Hstep Hx.
  destruct (decide (summary_of y.2 = summary_of x.2)) as [Heq|Hne].
  - unfold summary_marked. by rewrite Heq.
  - destruct (step_summary_change _ _ _ _ x y Hstep Hne) as (? & _ & _ & Hi).
    by right.
Qed.

(** X18. With the network loop as the state machine of the design document,
    the summary a run returns, the one both generators were run on, is empty
    or contains the sentinel [<task_summary>]: no other text ever becomes the
    summary. When the run persisted a fragment, the summary contains the
    sentinel. *)
Theorem returned_summary_is_marked (event : Event) (m0 : Mem W) (out : Output)
    (m' : Mem W) :
  codeAgentFunction event m0 = (Returns out, m') →
  (out_summary out = "" ∨
   ∃ pre post, out_summary out = pre +:+ "<task_summary>" +:+ post) ∧
  ∀ record f,
    last (persisted m') = Some record → msg_fragment record = Some f →
    ∃ pre post, out_summary out = pre +:+ "<task_summary>" +:+ post.
Proof.
  intros Hrun. apply codeAgentFunction_stages in Hrun
    as (sandboxId & found & ms & ml & c & titleOut & respOut & host & record
        & _ & _ & Hsum & Hnet & _ & _ & -> & _ & _ & Hp & _ & Hfrag).
  simpl.
  assert (summary_marked ml) as Hmarked.
  { apply network_run_returns in Hnet as (Hsteps & _);
      [|unfold maxIter; lia].
    assert (summary_marked (start ms).2) as Hstart by by left.
    change ml with (c, ml).2. revert Hstart.
    induction Hsteps as [x|x y z Hxy Hyz IH]; [done|].
    intros Hx. apply IH. by eapply step_summary_marked. }
  assert (summary_of ml = "" ∨
          ∃ pre post, summary_of ml = pre +:+ "<task_summary>" +:+ post)
    as Hcases.
  { destruct Hmarked as [?|Hi]; [by left|right].
    by apply (includes_true_iff _ sentinel). }
  split; [done|]. intros record' f. rewrite Hp, last_snoc. intros [= <-] Hf.
  destruct (Hfrag f Hf) as (_ & _ & _ & Hok).
  apply isError_false_iff in Hok as [Hne _]. by destruct Hcases.
Qed.

End StageCoverage.
Section CommitCoverage.
Context {W : Type} `{Environment W}.
Variable sandboxId : string.

Local Open Scope run_scope.

(** X21. The commit of a [createOrUpdateFiles] invocation is all or nothing.
    The handler never throws. When the step hands back an error string, the
    memory of the process is what it was, the mapping of the state included:
    only the world outside has changed. When the step hands back the mapping,
    the state refers to a new object, which holds, for every path other than
    [__proto__], the content of the last entry of the invocation for that
    path, and what the mapping held before for a path with no entry. In both
    cases every object there was before the invocation is left as it was:
    what still refers to the mapping from before sees no part of the
    merge. *)
Theorem createOrUpdateFiles_commit_is_all_or_nothing (file : list FileItem)
    (m : Mem W) :
  ∃ m',
    createOrUpdateFiles_handler sandboxId (Some ()) file m = (Returns None, m') ∧
    (∀ l, l ∈ dom (objects m) → objects m' !! l = objects m !! l) ∧
    ((∃ e, (createOrUpdateFiles_step sandboxId file m).1
           = Returns (VString ("Error: " +:+ e)) ∧
           m' = with_world m (world m')) ∨
     ((∃ l, (createOrUpdateFiles_step sandboxId file m).1
            = Returns (VObject l)) ∧
      (files (data m') ∉ dom (objects m)) ∧
      ∀ p, p ≠ "__proto__" →
           state_files m' !! p
           = match last_write p file with
             | Some c => Some c
             | None => state_files m !! p
             end)).
Proof.
  destruct (createOrUpdateFiles_handler_run sandboxId file m)
    as (v & m1 & Hstep & Hv).
  rewrite Hstep. destruct v as [l|s].
  - eexists. split; [done|]. split; [apply committed_memory_heap|].
    right. split; [by exists l|]. split; [apply is_fresh|].
    intros p Hp. by rewrite committed_memory_files, merge_files_lookup_ne.
  - destruct Hv as (Hh & e & ->). eexists. split; [done|].
    split; [done|]. left. by exists e.
Qed.

End CommitCoverage.

(** In the executable environment: the invocation whose second write the
    sandbox rejects leaves the state as it was, while the file of its first
    write is in the sandbox. *)
Lemma sim_failing_call_commits_nothing :
  let m := Sim.fresh_state Sim.silent in
  ∃ m',
    createOrUpdateFiles_handler "sbx-1" (Some ()) Sim.failing_call m
    = (Returns None, m') ∧
    state_files m' = ∅ ∧ files (data m') = files (data m) ∧
    Sim.fs (world m') !! "a.txt" = Some "x".
Proof.
  cbv zeta. eexists. split; [vm_compute; reflexivity|].
  split; [vm_compute; reflexivity|]. split; vm_compute; reflexivity.
Qed.
Section ProvenanceCoverage.
Context {W : Type} `{Environment W}.
Variable sandboxId : string.

Local Open Scope run_scope.

(** X20. The tools never invent an entry of the files mapping: after the tool
    invocations of a turn, however they ended, every path of the mapping with
    its content was there before, or is the path and the content of an entry
    of one of the turn's [createOrUpdateFiles] invocations. [terminal] and
    [readFiles] leave the mapping as it is, whatever happens in the
    sandbox. *)
Theorem files_come_from_write_calls (step : option ()) (ts : list ToolCall)
    (m : Mem W) (p c : string) :
  state_files (invoke_all sandboxId step ts m).2 !! p = Some c →
  state_files m !! p = Some c ∨
  ∃ file item, createOrUpdateFiles file ∈ ts ∧ item ∈ file ∧
               path item = p ∧ content item = c.
Proof.
  rewrite invoke_all_state_files.
  intros [?|(item & Hin & ? & ?)]%merge_files_elem; [by left|right].
  apply committed_elem in Hin as (file & ? & ?). by exists file, item.
Qed.

End ProvenanceCoverage.

(** ** The further properties at work in the executable environment *)

Lemma sandbox_tools_ignore_agent_state_witness :
  let m := Sim.fresh_state Sim.silent in
  let m' := with_summary m "done" in
  world m = world m' ∧
  (readFiles_handler "sbx-1" (Some ()) ["a.txt"] m).1
  = (readFiles_handler "sbx-1" (Some ()) ["a.txt"] m').1.
Proof.
  cbv zeta. split; [reflexivity|].
  exact (proj1 (proj2 (@sandbox_tools_ignore_agent_state Sim.World
                         Sim.environment "sbx-1" (Some ())
                         (Sim.fresh_state Sim.silent)
                         (with_summary (Sim.fresh_state Sim.silent) "done")
                         eq_refl) ["a.txt"])).
Defined.

Lemma createOrUpdateFiles_retry_is_idempotent_witness :
  let m := Sim.fresh_state Sim.silent in
  writes_succeed "sbx-1" [sim_file_a; sim_file_a] m ∧
  state_files
    (invoke_all "sbx-1" (Some ())
       [createOrUpdateFiles sim_file_a; createOrUpdateFiles sim_file_a] m).2
  = state_files (createOrUpdateFiles_handler "sbx-1" (Some ()) sim_file_a m).2.
Proof.
  cbv zeta.
  assert (writes_succeed "sbx-1" [sim_file_a; sim_file_a]
            (Sim.fresh_state Sim.silent)) as Hok.
  { split; [eexists _, _; vm_compute; reflexivity|].
    split; [eexists _, _; vm_compute; reflexivity|]. exact I. }
  split; [exact Hok|].
  exact (@createOrUpdateFiles_retry_is_idempotent Sim.World Sim.environment
           "sbx-1" sim_file_a (Sim.fresh_state Sim.silent) Hok).
Defined.

Lemma disjoint_invocations_commute_witness :
  let m := Sim.fresh_state Sim.silent in
  (∀ p, last_write p sim_file_a = None ∨ last_write p sim_file_b = None) ∧
  state_files
    (invoke_all "sbx-1" (Some ())
       [createOrUpdateFiles sim_file_a; createOrUpdateFiles sim_file_b] m).2
  = state_files
      (invoke_all "sbx-1" (Some ())
         [createOrUpdateFiles sim_file_b; createOrUpdateFiles sim_file_a] m).2.
Proof.
  cbv zeta.
  assert (∀ p, last_write p sim_file_a = None ∨ last_write p sim_file_b = None)
    as Hdisj.
  { intros p. unfold sim_file_a, sim_file_b, last_write. simpl.
    destruct (decide ("a.txt" = p)) as [<-|?]; [right|left]; done. }
  assert (writes_succeed "sbx-1" [sim_file_a; sim_file_b]
            (Sim.fresh_state Sim.silent)) as H12.
  { split; [eexists _, _; vm_compute; reflexivity|].
    split; [eexists _, _; vm_compute; reflexivity|]. exact I. }
  assert (writes_succeed "sbx-1" [sim_file_b; sim_file_a]
            (Sim.fresh_state Sim.silent)) as H21.
  { split; [eexists _, _; vm_compute; reflexivity|].
    split; [eexists _, _; vm_compute; reflexivity|]. exact I. }
  split; [exact Hdisj|].
  exact (@disjoint_invocations_commute Sim.World Sim.environment "sbx-1"
           sim_file_a sim_file_b (Sim.fresh_state Sim.silent) Hdisj H12 H21).
Defined.

Lemma state_and_sandbox_agree_witness :
  let m := Sim.fresh_state Sim.silent in
  let m' :=
    (invoke_all "sbx-1" (Some ()) (createOrUpdateFiles <$> Sim.two_calls) m).2 in
  last_write "a.txt" (List.concat Sim.two_calls) = Some "3" ∧
  "a.txt" ≠ "__proto__" ∧
  state_files m' !! "a.txt" = Some "3" ∧
  (files_read "a.txt" (world m')).1 = Returns "3".
Proof.
  cbv zeta. split; [reflexivity|]. split; [discriminate|].
  assert (writes_succeed "sbx-1" Sim.two_calls (Sim.fresh_state Sim.silent))
    as Hok.
  { split; [eexists _, _; vm_compute; reflexivity|].
    split; [eexists _, _; vm_compute; reflexivity|]. exact I. }
  destruct (@state_and_sandbox_agree Sim.World Sim.environment
              sim_sandbox_files "sbx-1" Sim.two_calls
              (Sim.fresh_state Sim.silent) "a.txt" "3" Hok
              ltac:(reflexivity) ltac:(discriminate)) as [Hstate _].
  split; [exact Hstate|]. vm_compute. reflexivity.
Defined.

Lemma throwing_run_persists_nothing_witness :
  let run := codeAgentFunction Sim.event (boot sim_expired) in
  run.1 = Throws Sim.expired ∧ persisted run.2 = [].
Proof.
  cbv zeta.
  assert (codeAgentFunction Sim.event (boot sim_expired)
          = (Throws Sim.expired,
             (codeAgentFunction Sim.event (boot sim_expired)).2)) as Hrun
    by (vm_compute; reflexivity).
  split; [exact (f_equal fst Hrun)|].
  exact (@throwing_run_persists_nothing Sim.World Sim.environment _ _ _ _ Hrun).
Defined.

Lemma history_is_oldest_first_witness :
  let run := codeAgentFunction Sim.event (boot sim_two_rows) in
  run.1 = Returns Sim.silent_output ∧
  ∃ found : list DbMessage,
    List.length (messages run.2) = List.length found ∧
    requested (messages run.2) = [].
Proof.
  cbv zeta.
  assert (codeAgentFunction Sim.event (boot sim_two_rows)
          = (Returns Sim.silent_output,
             (codeAgentFunction Sim.event (boot sim_two_rows)).2)) as Hrun
    by (vm_compute; reflexivity).
  split; [exact (f_equal fst Hrun)|].
  destruct (@history_is_oldest_first Sim.World Sim.environment _ _ _ _ Hrun)
    as (found & _ & Hlen & _ & Hreq).
  exists found. exact (conj Hlen Hreq).
Defined.

Lemma record_and_result_agree_witness :
  let run := codeAgentFunction Sim.event (boot Sim.todo_app) in
  run.1 = Returns Sim.todo_output ∧
  ∃ host, out_url Sim.todo_output = "http://" +:+ host.
Proof.
  cbv zeta.
  assert (codeAgentFunction Sim.event (boot Sim.todo_app)
          = (Returns Sim.todo_output,
             (codeAgentFunction Sim.event (boot Sim.todo_app)).2)) as Hrun
    by (vm_compute; reflexivity).
  split; [exact (f_equal fst Hrun)|].
  destruct (@record_and_result_agree Sim.World Sim.environment _ _ _ _ Hrun)
    as (host & record & _ & Hurl & _).
  exists host. exact Hurl.
Defined.

Lemma returned_summary_is_marked_witness :
  let run := codeAgentFunction Sim.event (boot Sim.todo_app) in
  run.1 = Returns Sim.todo_output ∧
  (out_summary Sim.todo_output = "" ∨
   ∃ pre post,
     out_summary Sim.todo_output = pre +:+ "<task_summary>" +:+ post).
Proof.
  cbv zeta.
  assert (codeAgentFunction Sim.event (boot Sim.todo_app)
          = (Returns Sim.todo_output,
             (codeAgentFunction Sim.event (boot Sim.todo_app)).2)) as Hrun
    by (vm_compute; reflexivity).
  split; [exact (f_equal fst Hrun)|].
  exact (proj1 (@returned_summary_is_marked Sim.World Sim.environment
                  _ _ _ _ Hrun)).
Defined.

Lemma files_come_from_write_calls_witness :
  let m := Sim.fresh_state Sim.silent in
  let ts := [terminal "ls"; createOrUpdateFiles sim_file_a; readFiles ["a.txt"]] in
  state_files (invoke_all "sbx-1" (Some ()) ts m).2 !! "a.txt" = Some "1" ∧
  (state_files m !! "a.txt" = Some "1" ∨
   ∃ file item, createOrUpdateFiles file ∈ ts ∧ item ∈ file ∧
                path item = "a.txt" ∧ content item = "1").
Proof.
  cbv zeta.
  assert (state_files
            (invoke_all "sbx-1" (Some ())
               [terminal "ls"; createOrUpdateFiles sim_file_a;
                readFiles ["a.txt"]] (Sim.fresh_state Sim.silent)).2
          !! "a.txt" = Some "1") as Hp by (vm_compute; reflexivity).
  split; [exact Hp|].
  exact (@files_come_from_write_calls Sim.World Sim.environment "sbx-1"
           (Some ()) _ (Sim.fresh_state Sim.silent) "a.txt" "1" Hp).
Defined.
